(** * Slides: a shallow embedding of [slides.py]

    The slideshow controller of [slides.py] is embedded as Rocq functions:
    - the Python exceptions and results the code can produce,
    - binary64 arithmetic as Python performs it in [calculate_scaled_size]
      (on the Z-based IEEE 754 specification of the Standard Library),
    - the random source behind [random.choice] as an interface,
    - the [Slideshow] object, its methods and the effects they perform
      (standard output, Tk canvas commands, timers, process exit).

    Modelling choices:
    - Python ints are [Z]; [shown_indices] is a [gset Z], [images] a list
      indexed the Python way ([list_getitem]);
    - a method is a function from the world (the object, the state of the
      random source, the log of effects) to an outcome: a return, a raised
      [Exception], or [SystemExit] with its code;
    - what the program does not define itself is an interface: the random
      source ([RandomSource]), the file system ([FileSystem]) and the
      imaging library ([Imaging]);
    - [bLoop] is assigned the constant [False] at line 27, "set to true for
      continuous looping": the value assigned is a parameter of the initial
      object, so that both settings can be stated. *)

From Stdlib Require Import ZArith Lia Bool Ascii String.
From Stdlib Require Import Floats.SpecFloat.
From Stdlib Require Import QArith Qpower Lqa.
From stdpp Require Import base gmap sets list strings.

Local Open Scope Z_scope.

(** ** Python exceptions and fallible values *)

(** The [Exception] subclasses the code can meet.  [OtherException] stands
    for whatever the file system and the imaging library raise ([OSError],
    [PermissionError], [UnidentifiedImageError], ...). *)
Inductive exn_class :=
| IndexError | ZeroDivisionError | OverflowError | ValueError | OtherException.

Record exn := Exn { exn_cls : exn_class; exn_msg : string }.

(** [str(e)], as the f-string of [show_next_image] formats it. *)
Definition exn_str (e : exn) : string := exn_msg e.

(** A Python expression that returns or raises, without touching the object. *)
Inductive pyres (A : Type) :=
| Ok (a : A)
| Exc (e : exn).
Arguments Ok {A} a.
Arguments Exc {A} e.

Definition pyres_bind {A B} (r : pyres A) (k : A → pyres B) : pyres B :=
  match r with
  | Ok a => k a
  | Exc e => Exc e
  end.

Notation "'let?' x ':=' r 'in' k" := (pyres_bind r (fun x => k))
  (at level 10, x pattern, r at level 100, k at level 200).

(** ** Binary64 arithmetic as Python performs it *)

Module PyFloat.

Definition prec : Z := 53.
Definition emax : Z := 1024.

Definition float := spec_float.

(** [float(z)] for an int operand of a mixed [int * float]: rounded to
    nearest even, [OverflowError] beyond the binary64 range. *)
Definition of_int (z : Z) : pyres float :=
  match binary_normalize prec emax z 0 false with
  | S754_infinity _ => Exc (Exn OverflowError "int too large to convert to float")
  | f => Ok f
  end.

(** [a / b] on ints: the correctly rounded quotient of the two integers. *)
Definition int_truediv (a b : Z) : pyres float :=
  if b =? 0 then Exc (Exn ZeroDivisionError "division by zero")
  else if a =? 0 then Ok (S754_zero (b <? 0))
  else
    let '(q, e, l) := SFdiv_core_binary prec emax (Z.abs a) 0 (Z.abs b) 0 in
    match binary_round_aux prec emax (xorb (a <? 0) (b <? 0)) q e l with
    | S754_infinity _ =>
        Exc (Exn OverflowError "integer division result too large for a float")
    | f => Ok f
    end.

(** [z * f] with [z] an int and [f] a float. *)
Definition int_mul (z : Z) (f : float) : pyres float :=
  let? x := of_int z in Ok (SFmul prec emax x f).

(** [min(a, b)]: the first argument unless the second is strictly less. *)
Definition min (a b : float) : float :=
  if SFltb b a then b else a.

(** [int(f)]: truncation towards zero. *)
Definition to_int (f : float) : pyres Z :=
  match f with
  | S754_zero _ => Ok 0
  | S754_finite s m e =>
      Ok (cond_Zopp s
            (match e with
             | Z0 => Zpos m
             | Zpos _ => Zpos m * 2 ^ e
             | Zneg p => Zpos m / 2 ^ Zpos p
             end))
  | S754_infinity _ =>
      Exc (Exn OverflowError "cannot convert float infinity to integer")
  | S754_nan => Exc (Exn ValueError "cannot convert float NaN to integer")
  end.

End PyFloat.

(** ** Module constants *)

Definition PAUSE : Z := 2000.
Definition SIZE : Z := 500.

(** Class attributes [Slideshow.width] and [Slideshow.height]. *)
Definition width : Z := SIZE.
Definition height : Z := width.

(** ** [Slideshow.calculate_scaled_size] *)

Definition calculate_scaled_size (original_size target_size : Z * Z) : pyres (Z * Z) :=
  let '(original_width, original_height) := original_size in
  let '(target_width, target_height) := target_size in
  let? width_ratio := PyFloat.int_truediv target_width original_width in
  let? height_ratio := PyFloat.int_truediv target_height original_height in
  let scale_ratio := PyFloat.min width_ratio height_ratio in
  let? fw := PyFloat.int_mul original_width scale_ratio in
  let? scaled_width := PyFloat.to_int fw in
  let? fh := PyFloat.int_mul original_height scale_ratio in
  let? scaled_height := PyFloat.to_int fh in
  Ok (scaled_width, scaled_height).


(** ** The random source

    [random.choice] draws through [Random._randbelow(n)], which returns an
    int in [0, n) and advances the generator.  The generator is kept
    abstract: any seedable source with that contract. *)

Class RandomSource (G : Type) := {
  randbelow : G → Z → Z * G;
  randbelow_range : ∀ g n, 0 < n → 0 ≤ (randbelow g n).1 < n
}.

(** A scripted source: the raw draws are listed in advance and reduced
    modulo the bound; an exhausted script keeps drawing 0. *)
#[export] Program Instance scripted : RandomSource (list Z) := {|
  randbelow g n := (hd 0 g `mod` n, tl g)
|}.
Next Obligation. intros g n Hn. simpl. apply Z.mod_pos_bound. exact Hn. Qed.

(** ** Sequences *)

(** [l[i]] on a Python list: negative indices count from the end. *)
Definition list_getitem {A} (l : list A) (i : Z) : pyres A :=
  let n := Z.of_nat (length l) in
  let j := if i <? 0 then i + n else i in
  match (if (0 <=? j) && (j <? n) then l !! Z.to_nat j else None) with
  | Some x => Ok x
  | None => Exc (Exn IndexError "list index out of range")
  end.

(** [range(n)]. *)
Definition range (n : Z) : list Z := seqZ 0 n.

(** [os.path.join(a, b)] on POSIX paths. *)
Definition ends_with_slash (a : string) : bool :=
  match last (String.list_ascii_of_string a) with
  | Some c => Ascii.eqb c "/"%char
  | None => false
  end.

Definition path_join (a b : string) : string :=
  if String.prefix "/" b then b
  else if bool_decide (a = EmptyString) || ends_with_slash a then a +:+ b
  else a +:+ "/" +:+ b.

(** ** External libraries: the file system and the imaging library *)

Class FileSystem := {
  os_listdir : string → pyres (list string);
  (** [os.path.isfile(path)] answers [False] where [os.stat] fails. *)
  os_path_isfile : string → bool;
  (** [imghdr.what(path)] opens the file and reads its header: the format
      name or [None], or the [OSError] of a file that cannot be opened. *)
  imghdr_what : string → pyres (option string)
}.

Record image := Image { img_size : Z * Z }.
Record photo := Photo { photo_width : Z; photo_height : Z }.

Class Imaging := {
  Image_open : string → pyres image;
  Image_resize : image → Z * Z → pyres image;
  ImageTk_PhotoImage : image → pyres photo
}.

(** Truth value of what [imghdr.what] returns. *)
Definition truthy (o : option string) : bool :=
  match o with
  | Some s => negb (bool_decide (s = EmptyString))
  | None => false
  end.

(** ** The Slideshow object and the effects of its methods *)

Record slideshow := Slideshow {
  folder : string;
  bLoop : bool;
  bFirstTime : bool;
  shown_indices : gset Z;
  current_image_index : Z;
  images : list string;
  current_image : option photo
}.

(** What the process does to the outside: lines printed, Tk commands on the
    window and its canvas, timers armed. *)
Inductive effect :=
| Print (line : string)
| WindowGeometry (w h x y : Z)
| CanvasPack
| CanvasDelete (tag : string)
| CanvasConfig (w h : Z)
| CanvasCreateImage (x y : Z) (img : photo)
| WindowAfter (ms : Z).

Record world (G : Type) := World {
  self : slideshow;
  gen : G;
  log : list effect
}.
Arguments World {G} _ _ _.
Arguments self {G} _.
Arguments gen {G} _.
Arguments log {G} _.

(** A method call returns, raises an [Exception], or leaves through
    [sys.exit]; the world it leaves behind is kept in each case. *)
Inductive outcome (W A : Type) :=
| Ret (a : A) (w : W)
| Raise (e : exn) (w : W)
| SysExit (code : Z) (w : W).
Arguments Ret {W A} a w.
Arguments Raise {W A} e w.
Arguments SysExit {W A} code w.

Definition final {W A} (r : outcome W A) : W :=
  match r with
  | Ret _ w | Raise _ w | SysExit _ w => w
  end.

Definition M (G A : Type) : Type := world G → outcome (world G) A.

#[export] Instance M_ret {G} : MRet (M G) := λ A a w, Ret a w.
#[export] Instance M_bind {G} : MBind (M G) := λ A B k m w,
  match m w with
  | Ret a w' => k a w'
  | Raise e w' => Raise e w'
  | SysExit c w' => SysExit c w'
  end.

Section Primitives.
Context {G : Type}.

Definition get_self : M G slideshow := λ w, Ret (self w) w.
Definition put_self (s : slideshow) : M G unit := λ w, Ret () (World s (gen w) (log w)).
Definition emit (e : effect) : M G unit := λ w, Ret () (World (self w) (gen w) (log w ++ [e])).
Definition raise {A} (e : exn) : M G A := λ w, Raise e w.
Definition sys_exit {A} (code : Z) : M G A := λ w, SysExit code w.
Definition lift {A} (r : pyres A) : M G A :=
  match r with
  | Ok a => mret a
  | Exc e => raise e
  end.

Definition print (line : string) : M G unit := emit (Print line).

(** [try: body / except Exception as e: handler e]; [SystemExit] is not
    an [Exception] and passes through. *)
Definition try_except {A} (body : M G A) (handler : exn → M G A) : M G A := λ w,
  match body w with
  | Raise e w' => handler e w'
  | r => r
  end.

(** Attribute stores. *)
Definition set_shown_indices (x : gset Z) : M G unit :=
  s ← get_self;
  put_self (Slideshow (folder s) (bLoop s) (bFirstTime s) x
              (current_image_index s) (images s) (current_image s)).

Definition set_current_image_index (i : Z) : M G unit :=
  s ← get_self;
  put_self (Slideshow (folder s) (bLoop s) (bFirstTime s) (shown_indices s)
              i (images s) (current_image s)).

Definition set_current_image (p : option photo) : M G unit :=
  s ← get_self;
  put_self (Slideshow (folder s) (bLoop s) (bFirstTime s) (shown_indices s)
              (current_image_index s) (images s) p).

End Primitives.

(** ** The methods of [Slideshow] *)

Section Methods.
Context {G : Type} {RS : RandomSource G} {FS : FileSystem} {IM : Imaging}.

(** [random.choice(seq)]. *)
Definition random_choice {A} (seq : list A) : M G A := λ w,
  match seq with
  | [] => Raise (Exn IndexError "Cannot choose from an empty sequence") w
  | _ =>
      let '(k, g') := randbelow (gen w) (Z.of_nat (length seq)) in
      lift (list_getitem seq k) (World (self w) g' (log w))
  end.

(** The [for] loop of [get_images] (lines 65-68) over what is left of the
    listing, [image_files] being the list built so far.  [and] evaluates
    [imghdr.what] only for a regular file; what it raises leaves the loop. *)
Fixpoint get_images_loop (image_folder : string) (entries image_files : list string)
  : pyres (list string) :=
  match entries with
  | [] => Ok image_files
  | file_name :: rest =>
      let file_path := path_join image_folder file_name in
      let? keep := (if os_path_isfile file_path
                    then (let? what := imghdr_what file_path in Ok (truthy what))
                    else Ok false) in
      get_images_loop image_folder rest
        (if keep then image_files ++ [file_name] else image_files)
  end.

(** [get_images]: the names of the entries of [folder] that are files and
    that [imghdr] recognises, in listing order. *)
Definition get_images (image_folder : string) : pyres (list string) :=
  let? entries := os_listdir image_folder in
  get_images_loop image_folder entries [].

(** Lines 75-81 of [get_next_image]: all images shown? *)
Definition check_all_shown : M G unit :=
  s ← get_self;
  if Nat.eqb (length (images s)) (size (shown_indices s)) then
    if negb (bLoop s) then
      print "DONE!";; sys_exit 0
    else
      set_shown_indices ∅
  else mret ().

(** Lines 84-92 of [get_next_image]: choose among the indices not shown. *)
Definition available_indices (s : slideshow) : list Z :=
  filter (λ i, i ∉ shown_indices s) (range (Z.of_nat (length (images s)))).

Definition select_unshown : M G string :=
  s ← get_self;
  i ← random_choice (available_indices s);
  set_current_image_index i;;
  s ← get_self;
  set_shown_indices ({[ current_image_index s ]} ∪ shown_indices s);;
  s ← get_self;
  lift (list_getitem (images s) (current_image_index s)).

Definition get_next_image : M G string :=
  check_all_shown;; select_unshown.

(** [load_image]: decode, scale to the target box, wrap for Tk. *)
Definition load_image (path : string) (target_size : Z * Z) : pyres photo :=
  let? img := Image_open path in
  let '(window_width, window_height) := target_size in
  let? scaled_size := calculate_scaled_size (img_size img) (window_width, window_height) in
  let? img := Image_resize img scaled_size in
  ImageTk_PhotoImage img.

Definition show_image (img : photo) : M G unit :=
  emit (CanvasDelete "all");;
  emit (CanvasConfig (photo_width img) (photo_height img));;
  emit (CanvasCreateImage 0 0 img).

Definition show_next_image : M G unit :=
  name ← get_next_image;
  try_except
    (s ← get_self;
     img ← lift (load_image (path_join (folder s) name) (width, height));
     set_current_image (Some img);;
     show_image img)
    (λ e,
       print ("Error loading image: " +:+ exn_str e);;
       set_current_image None;;
       print ("name = " +:+ name);;
       sys_exit 0);;
  emit (WindowAfter PAUSE).

(** The object as [__init__] leaves it at line 54, before the first
    image is requested.  [loop] is the value line 27 stores in [bLoop]:
    [False] in the source, [True] once edited as its comment says
    ("set to true for continuous looping"). *)
Definition initial_self (loop : bool) (folder : string) (imgs : list string) : slideshow :=
  {| folder := folder; bLoop := loop; bFirstTime := true;
     shown_indices := ∅; current_image_index := -1;
     images := imgs; current_image := None |}.

(** Lines 26-54 of [__init__]; [screen] is what [winfo_screenwidth] and
    [winfo_screenheight] report. *)
Definition construct (loop : bool) (folder : string) (screen : Z * Z) (g : G)
  : outcome (world G) unit :=
  let '(screen_width, screen_height) := screen in
  let x := screen_width - width in
  let y := screen_height - height in
  let tk := [WindowGeometry width height x y; CanvasPack] in
  match get_images folder with
  | Ok imgs => Ret () (World (initial_self loop folder imgs) g tk)
  | Exc e => Raise e (World (initial_self loop folder []) g tk)
  end.

(** [mainloop] fires the timer each [show_next_image] arms, [ticks] times. *)
Fixpoint mainloop (ticks : nat) : M G unit :=
  match ticks with
  | O => mret ()
  | S n => show_next_image;; mainloop n
  end.

(** [Slideshow(folder)], observed for [ticks] timer firings. *)
Definition run (loop : bool) (folder : string) (screen : Z * Z) (g : G) (ticks : nat)
  : outcome (world G) unit :=
  match construct loop folder screen g with
  | Ret _ w => (show_next_image;; mainloop ticks) w
  | r => r
  end.

(** [n] successive calls of [get_next_image]: the index and the name
    each call selected, and how the last call attempted ended. *)
Fixpoint selections (n : nat) (w : world G) : list (Z * string) * outcome (world G) unit :=
  match n with
  | O => ([], Ret () w)
  | S n' =>
      match get_next_image w with
      | Ret name w' =>
          let '(l, r) := selections n' w' in
          ((current_image_index (self w'), name) :: l, r)
      | Raise e w' => ([], Raise e w')
      | SysExit c w' => ([], SysExit c w')
      end
  end.

End Methods.

(** * Specification vocabulary *)

(** Every index of the shown-set is an index into [images]. *)
Definition valid_shown (s : slideshow) : Prop :=
  ∀ i, i ∈ shown_indices s → 0 ≤ i < Z.of_nat (length (images s)).

(** The object after line 81 cleared the shown-set. *)
Definition clear_shown (s : slideshow) : slideshow :=
  Slideshow (folder s) (bLoop s) (bFirstTime s) ∅
    (current_image_index s) (images s) (current_image s).

(** The object after lines 87-90 selected index [i]. *)
Definition record_shown (i : Z) (s : slideshow) : slideshow :=
  Slideshow (folder s) (bLoop s) (bFirstTime s) ({[ i ]} ∪ shown_indices s)
    i (images s) (current_image s).

(** The draw line 87 makes in world [w]. *)
Definition draw {G : Type} {RS : RandomSource G} (w : world G) : Z * G :=
  randbelow (gen w) (Z.of_nat (length (available_indices (self w)))).

(** The object after [self.current_image] was stored. *)
Definition with_current_image (p : option photo) (s : slideshow) : slideshow :=
  Slideshow (folder s) (bLoop s) (bFirstTime s) (shown_indices s)
    (current_image_index s) (images s) p.

(** The states the slideshow goes through: the object [__init__] builds,
    then any sequence of returning selections, bare ([get_next_image]) or
    as a timer tick performs them ([show_next_image]). *)
Inductive reachable {G : Type} {RS : RandomSource G} {IM : Imaging}
    (loop : bool) (imgs : list string) : world G → Prop :=
| reach_init dir g lg :
    reachable loop imgs (World (initial_self loop dir imgs) g lg)
| reach_select w name w' :
    reachable loop imgs w → get_next_image w = Ret name w' →
    reachable loop imgs w'
| reach_show w w' :
    reachable loop imgs w → show_next_image w = Ret () w' →
    reachable loop imgs w'.

(** Two worlds agree on what selection reads: the image set, the shown-set,
    the loop flag and the state of the random source. *)
Definition same_selection_state {G : Type} (w1 w2 : world G) : Prop :=
  images (self w1) = images (self w2) ∧
  shown_indices (self w1) = shown_indices (self w2) ∧
  bLoop (self w1) = bLoop (self w2) ∧
  gen w1 = gen w2.

(** A computation leaves [self.images] as it found it, however it ends. *)
Definition keeps_images {G A : Type} (m : M G A) : Prop :=
  ∀ w, images (self (final (m w))) = images (self w).

(** Every regular file among [entries] can be opened by [imghdr.what]. *)
Definition readable_entries {FS : FileSystem} (dir : string) (entries : list string) : Prop :=
  Forall (λ name, os_path_isfile (path_join dir name) = true →
                  ∃ what, imghdr_what (path_join dir name) = Ok what) entries.

(** The test of line 67 on an entry whose file can be opened. *)
Definition recognised {FS : FileSystem} (dir name : string) : bool :=
  os_path_isfile (path_join dir name) &&
  match imghdr_what (path_join dir name) with
  | Ok what => truthy what
  | Exc _ => false
  end.

(** ** Sample data for the examples *)

(** A folder for examples: two images, a text file and a nested folder. *)
Definition sample_fs : FileSystem := {|
  os_listdir d :=
    if bool_decide (d = "pics") then Ok ["a.png"; "notes.txt"; "nested"; "b.jpg"]
    else Exc (Exn OtherException "No such file or directory");
  os_path_isfile p :=
    bool_decide (p ∈ ["pics/a.png"; "pics/notes.txt"; "pics/b.jpg"]);
  imghdr_what p :=
    if bool_decide (p = "pics/a.png") then Ok (Some "png")
    else if bool_decide (p = "pics/b.jpg") then Ok (Some "jpeg")
    else Ok None
|}.

(** A small imaging library for examples: every path decodes to a 640x480
    image but [pics/broken.png], which fails to open. *)
Definition sample_imaging : Imaging := {|
  Image_open path :=
    if bool_decide (path = "pics/broken.png")
    then Exc (Exn OtherException "cannot identify image file")
    else Ok (Image (640, 480));
  Image_resize img size := Ok (Image size);
  ImageTk_PhotoImage img := Ok (Photo (img_size img).1 (img_size img).2)
|}.

Definition sample_images : list string := ["a.png"; "b.png"; "c.png"].

(** The world after the first selection of a run over [sample_images]
    whose first draw is 5. *)
Definition sample_world : world (list Z) :=
  World (record_shown 2 (initial_self false "pics" sample_images)) [1; 0] [].

(** The world after a full pass over two images with looping enabled: both
    indices shown, index 1 shown last. *)
Definition sample_full_world : world (list Z) :=
  World (record_shown 1 (record_shown 0 (initial_self true "pics" ["a.png"; "b.png"])))
    [7] [].

(** A one-image folder whose image does not decode. *)
Definition sample_broken_world : world (list Z) :=
  World (initial_self false "pics" ["broken.png"]) [0] [].

(** ** Reading the effect log *)

(** What the canvas holds after the Tk commands of a log:
    [canvas.delete("all")] empties it, [canvas.create_image] adds an item. *)
Definition canvas_step (items : list (Z * Z * photo)) (e : effect) : list (Z * Z * photo) :=
  match e with
  | CanvasDelete tag => if bool_decide (tag = "all") then [] else items
  | CanvasCreateImage x y img => items ++ [(x, y, img)]
  | _ => items
  end.

Definition canvas_items (lg : list effect) : list (Z * Z * photo) :=
  foldl canvas_step [] lg.

(** The size the canvas was last configured to. *)
Definition canvas_config_step (c : option (Z * Z)) (e : effect) : option (Z * Z) :=
  match e with
  | CanvasConfig w h => Some (w, h)
  | _ => c
  end.

Definition canvas_size (lg : list effect) : option (Z * Z) :=
  foldl canvas_config_step None lg.

(** The images drawn and the timers armed, in order. *)
Definition drawn (lg : list effect) : list photo :=
  omap (λ e, match e with CanvasCreateImage _ _ img => Some img | _ => None end) lg.

Definition timers (lg : list effect) : list Z :=
  omap (λ e, match e with WindowAfter ms => Some ms | _ => None end) lg.

Definition printed (lg : list effect) : list string :=
  omap (λ e, match e with Print line => Some line | _ => None end) lg.

(** The effects of one tick that renders [p]. *)
Definition tick_effects (p : photo) : list effect :=
  [CanvasDelete "all"; CanvasConfig (photo_width p) (photo_height p);
   CanvasCreateImage 0 0 p; WindowAfter PAUSE].

(** What a session keeps fixed: the image set, the folder and the loop
    flag; and the shown-set stays within the indices of the image set. *)
Definition session_inv {G : Type} (loop : bool) (dir : string) (imgs : list string)
    (w : world G) : Prop :=
  images (self w) = imgs ∧ folder (self w) = dir ∧ bLoop (self w) = loop ∧
  valid_shown (self w).

(** Every image of the set loads into the window box. *)
Definition loadable {IM : Imaging} (dir : string) (imgs : list string) : Prop :=
  ∀ name, name ∈ imgs → ∃ p, load_image (path_join dir name) (width, height) = Ok p.

(** A world in which an image is already on the canvas. *)
Definition sample_busy_world : world (list Z) :=
  World (initial_self false "pics" sample_images) [5; 1; 0]
    [CanvasDelete "all"; CanvasConfig 10 10; CanvasCreateImage 0 0 (Photo 10 10)].

(** A folder that holds no image. *)
Definition sample_empty_fs : FileSystem := {|
  os_listdir d := Ok ["notes.txt"];
  os_path_isfile p := true;
  imghdr_what p := Ok None
|}.

(** A folder with a file that cannot be opened between two images. *)
Definition sample_locked_fs : FileSystem := {|
  os_listdir d := Ok ["a.png"; "locked.png"; "b.jpg"];
  os_path_isfile p := true;
  imghdr_what p :=
    if bool_decide (p = "pics/locked.png")
    then Exc (Exn OtherException "[Errno 13] Permission denied: 'pics/locked.png'")
    else Ok (Some "png")
|}.

(** The rational a finite binary64 number denotes. *)
Definition B2Q (f : spec_float) : Q :=
  match f with
  | S754_finite s m e => (inject_Z (cond_Zopp s (Zpos m)) * 2 ^ e)%Q
  | _ => 0%Q
  end.

(** An imaging library whose images all decode as 640 pixels wide and 0
    pixels high. *)
Definition sample_flat_imaging : Imaging := {|
  Image_open path := Ok (Image (640, 0));
  Image_resize img size := Ok (Image size);
  ImageTk_PhotoImage img := Ok (Photo (img_size img).1 (img_size img).2)
|}.

Create HintDb frame.

(** * Properties *)

(** ** The availability list *)

Section Available.
Implicit Types (s : slideshow).

Lemma elem_of_available s i :
  i ∈ available_indices s ↔
  (0 ≤ i < Z.of_nat (length (images s))) ∧ i ∉ shown_indices s.
Proof.
  unfold available_indices, range.
  rewrite list_elem_of_filter, elem_of_seqZ. intuition lia.
Qed.

Lemma size_range (n : nat) :
  size (list_to_set (range (Z.of_nat n)) : gset Z) = n.
Proof.
  unfold range. rewrite size_list_to_set by apply NoDup_seqZ.
  rewrite length_seqZ. lia.
Qed.

Lemma valid_shown_size s :
  valid_shown s → (size (shown_indices s) ≤ length (images s))%nat.
Proof.
  intros Hv. rewrite <- (size_range (length (images s))).
  apply subseteq_size. intros i Hi. apply elem_of_list_to_set.
  unfold range. apply elem_of_seqZ. specialize (Hv i Hi). lia.
Qed.

(** While the pass is not complete some index is still available. *)
Lemma available_nonempty s :
  valid_shown s →
  size (shown_indices s) ≠ length (images s) →
  available_indices s ≠ [].
Proof.
  intros Hv Hsz Hnil. apply Hsz.
  apply Nat.le_antisymm; [by apply valid_shown_size|].
  rewrite <- (size_range (length (images s))).
  apply subseteq_size. intros i Hi.
  apply elem_of_list_to_set in Hi. unfold range in Hi.
  apply elem_of_seqZ in Hi.
  destruct (decide (i ∈ shown_indices s)) as [|Hni]; [done|].
  assert (i ∈ available_indices s) as Hin
    by (apply elem_of_available; split; [lia|done]).
  rewrite Hnil in Hin. by apply not_elem_of_nil in Hin.
Qed.

(** With an empty shown-set the availability list is the whole range. *)
Lemma available_all s :
  shown_indices s = ∅ →
  available_indices s = range (Z.of_nat (length (images s))).
Proof.
  intros He. unfold available_indices. rewrite He.
  induction (range _) as [|x l IH]; [done|].
  rewrite filter_cons_True by set_solver. by rewrite IH.
Qed.

Lemma getitem_lookup {A} (l : list A) k x :
  0 ≤ k → l !! Z.to_nat k = Some x → list_getitem l k = Ok x.
Proof.
  intros Hk Hl. unfold list_getitem.
  pose proof (lookup_lt_Some _ _ _ Hl).
  rewrite (proj2 (Z.ltb_ge k 0)), (proj2 (Z.leb_le 0 k)), (proj2 (Z.ltb_lt k _)) by lia.
  simpl. by rewrite Hl.
Qed.

End Available.

(** ** One call of [get_next_image] *)


Section Selection.
Context {G : Type} {RS : RandomSource G}.
Implicit Types (w : world G) (s : slideshow).

Lemma check_all_shown_continue w :
  length (images (self w)) ≠ size (shown_indices (self w)) →
  check_all_shown w = Ret () w.
Proof.
  intros Hne. unfold check_all_shown, mbind, M_bind, get_self.
  apply Nat.eqb_neq in Hne. by rewrite Hne.
Qed.

Lemma check_all_shown_exit w :
  length (images (self w)) = size (shown_indices (self w)) →
  bLoop (self w) = false →
  check_all_shown w = SysExit 0 (World (self w) (gen w) (log w ++ [Print "DONE!"])).
Proof.
  intros Heq Hl. unfold check_all_shown, mbind, M_bind, get_self.
  apply Nat.eqb_eq in Heq. by rewrite Heq, Hl.
Qed.

Lemma check_all_shown_reset w :
  length (images (self w)) = size (shown_indices (self w)) →
  bLoop (self w) = true →
  check_all_shown w = Ret () (World (clear_shown (self w)) (gen w) (log w)).
Proof.
  intros Heq Hl. unfold check_all_shown, mbind, M_bind, get_self.
  apply Nat.eqb_eq in Heq. by rewrite Heq, Hl.
Qed.

Lemma select_unshown_empty w :
  available_indices (self w) = [] →
  select_unshown w = Raise (Exn IndexError "Cannot choose from an empty sequence") w.
Proof.
  intros He. unfold select_unshown, mbind, M_bind, get_self, random_choice.
  by rewrite He.
Qed.

Lemma select_unshown_pick w :
  available_indices (self w) ≠ [] →
  ∃ i name,
    available_indices (self w) !! Z.to_nat (draw w).1 = Some i ∧
    (0 ≤ (draw w).1 < Z.of_nat (length (available_indices (self w)))) ∧
    images (self w) !! Z.to_nat i = Some name ∧
    select_unshown w = Ret name (World (record_shown i (self w)) (draw w).2 (log w)).
Proof.
  intros Hne.
  assert (0 < Z.of_nat (length (available_indices (self w)))) as Hlen.
  { destruct (available_indices (self w)); [done|]. simpl. lia. }
  pose proof (randbelow_range (gen w) _ Hlen) as Hk. fold (draw w) in Hk.
  destruct (lookup_lt_is_Some_2 (available_indices (self w)) (Z.to_nat (draw w).1))
    as [i Hi]; [lia|].
  assert (0 ≤ i < Z.of_nat (length (images (self w)))) as Hrange.
  { apply list_elem_of_lookup_2 in Hi. by apply elem_of_available in Hi as [? _]. }
  destruct (lookup_lt_is_Some_2 (images (self w)) (Z.to_nat i)) as [name Hname]; [lia|].
  exists i, name. repeat split; [done|lia|lia|done|].
  unfold select_unshown, mbind, M_bind, get_self, random_choice.
  destruct (available_indices (self w)) as [|a l] eqn:Hav; [done|].
  unfold draw in *. rewrite Hav in *.
  destruct (randbelow (gen w) (Z.of_nat (length (a :: l)))) as [k g'] eqn:Hd.
  simpl in Hi, Hk.
  rewrite (getitem_lookup (a :: l) k i) by (done || lia).
  simpl. unfold mret, M_ret. simpl.
  rewrite (getitem_lookup (images (self w)) i name) by (done || lia).
  done.
Qed.

(** A call that does not find the pass complete selects an index that was
    not shown, records it and returns its name. *)
Lemma get_next_image_continue w :
  valid_shown (self w) →
  length (images (self w)) ≠ size (shown_indices (self w)) →
  ∃ i name,
    (0 ≤ i < Z.of_nat (length (images (self w)))) ∧
    (i ∉ shown_indices (self w)) ∧
    images (self w) !! Z.to_nat i = Some name ∧
    get_next_image w = Ret name (World (record_shown i (self w)) (draw w).2 (log w)).
Proof.
  intros Hv Hsz.
  destruct (select_unshown_pick w) as (i & name & Hi & _ & Hname & Hsel).
  { apply available_nonempty; [done|congruence]. }
  apply list_elem_of_lookup_2, elem_of_available in Hi as [Hr Hni].
  exists i, name. repeat split; [lia|lia|done|done|].
  unfold get_next_image, mbind, M_bind.
  by rewrite check_all_shown_continue.
Qed.

(** A call that finds the pass complete with looping disabled prints
    [DONE!] and leaves through [sys.exit(0)]. *)
Lemma get_next_image_exit w :
  length (images (self w)) = size (shown_indices (self w)) →
  bLoop (self w) = false →
  get_next_image w = SysExit 0 (World (self w) (gen w) (log w ++ [Print "DONE!"])).
Proof.
  intros Heq Hl. unfold get_next_image, mbind, M_bind.
  by rewrite check_all_shown_exit.
Qed.

(** A call that finds the pass complete with looping enabled goes on from
    the cleared object. *)
Lemma get_next_image_reset w :
  length (images (self w)) = size (shown_indices (self w)) →
  bLoop (self w) = true →
  get_next_image w = select_unshown (World (clear_shown (self w)) (gen w) (log w)).
Proof.
  intros Heq Hl. unfold get_next_image, mbind, M_bind.
  by rewrite check_all_shown_reset.
Qed.

End Selection.

(** ** A pass without looping *)

Section Pass.
Context {G : Type} {RS : RandomSource G}.
Implicit Types (w : world G) (s : slideshow).

Lemma record_shown_valid i s :
  valid_shown s → 0 ≤ i < Z.of_nat (length (images s)) →
  valid_shown (record_shown i s).
Proof.
  intros Hv Hi j. unfold record_shown; simpl.
  rewrite elem_of_union, elem_of_singleton. intros [->|Hj]; [done|by apply Hv].
Qed.

Lemma record_shown_size i s :
  i ∉ shown_indices s →
  size (shown_indices (record_shown i s)) = S (size (shown_indices s)).
Proof.
  intros Hni. unfold record_shown; simpl.
  rewrite size_union by set_solver. by rewrite size_singleton.
Qed.

(** From a state that still misses [n] indices, [n] calls succeed, select
    [n] distinct indices that were missing and complete the pass. *)
Lemma selections_pass n w :
  valid_shown (self w) →
  (size (shown_indices (self w)) + n = length (images (self w)))%nat →
  ∃ sel w',
    selections n w = (sel, Ret () w') ∧
    length sel = n ∧
    NoDup sel.*1 ∧
    (∀ i, i ∈ sel.*1 →
          (0 ≤ i < Z.of_nat (length (images (self w)))) ∧ i ∉ shown_indices (self w)) ∧
    (∀ i name, (i, name) ∈ sel → images (self w) !! Z.to_nat i = Some name) ∧
    images (self w') = images (self w) ∧
    bLoop (self w') = bLoop (self w) ∧
    log w' = log w ∧
    size (shown_indices (self w')) = length (images (self w')).
Proof.
  revert w. induction n as [|n IH]; intros w Hv Hsz.
  - exists [], w. simpl. split_and!; try done.
    + constructor.
    + intros i Hi. by apply not_elem_of_nil in Hi.
    + intros i name Hi. by apply not_elem_of_nil in Hi.
    + lia.
  - destruct (get_next_image_continue w) as (i & name & Hi & Hni & Hname & Hget);
      [done|lia|].
    set (w1 := World (record_shown i (self w)) (draw w).2 (log w)) in *.
    destruct (IH w1) as (sel & w' & Hsel & Hlen & Hnd & Hin & Hnames & Himg & Hloop & Hlog & Hfull).
    { by apply record_shown_valid. }
    { change (self w1) with (record_shown i (self w)).
      rewrite record_shown_size by done. simpl. lia. }
    exists ((i, name) :: sel), w'. simpl. rewrite Hget, Hsel. simpl.
    split_and!; try done.
    + by rewrite Hlen.
    + apply NoDup_cons. split; [|done].
      intros Hi'. apply Hin in Hi' as [_ Hi']. apply Hi'. simpl.
      by apply elem_of_union_l, elem_of_singleton.
    + intros j Hj. apply elem_of_cons in Hj as [->|Hj]; [done|].
      apply Hin in Hj as [Hr Hj]. simpl in Hr, Hj. split; [done|].
      intros Hs. by apply Hj, elem_of_union_r.
    + intros j nm Hj. apply elem_of_cons in Hj as [Heq|Hj].
      * by inversion Heq; subst.
      * by apply Hnames in Hj.
Qed.

(** Reading the names of a permutation of the index range off [imgs]
    gives a permutation of [imgs]. *)
Lemma names_of_range (imgs : list string) (sel : list (Z * string)) :
  sel.*1 ≡ₚ range (Z.of_nat (length imgs)) →
  (∀ i name, (i, name) ∈ sel → imgs !! Z.to_nat i = Some name) →
  sel.*2 ≡ₚ imgs.
Proof.
  intros Hperm Hnames.
  set (f := λ i : Z, default EmptyString (imgs !! Z.to_nat i)).
  assert (sel.*2 = f <$> sel.*1) as ->.
  { clear Hperm. induction sel as [|[i name] sel IH]; [done|].
    simpl. f_equal.
    - unfold f. by rewrite (Hnames i name) by set_solver.
    - apply IH. intros j nm Hj. apply Hnames. set_solver. }
  rewrite Hperm.
  assert (f <$> range (Z.of_nat (length imgs)) = imgs) as ->; [|done].
  apply list_eq. intros k. rewrite list_lookup_fmap. unfold range.
  destruct (imgs !! k) as [x|] eqn:Hk.
  - rewrite lookup_seqZ_lt by (apply lookup_lt_Some in Hk; lia).
    simpl. unfold f. f_equal. replace (Z.to_nat (0 + Z.of_nat k)) with k by lia.
    by rewrite Hk.
  - rewrite lookup_seqZ_ge by (apply lookup_ge_None in Hk; lia). done.
Qed.

End Pass.

(** ** Claims about selection *)

(** C1: with looping disabled and a non-empty image set of size N, the
    first N calls of [get_next_image] all return; the indices they select
    are pairwise distinct and are exactly 0 .. N-1 in some order, each call
    returns the name stored at the index it selected, so the names returned
    are those of the image set, each once; the (N+1)-th call prints [DONE!]
    and leaves the process through [sys.exit(0)]. *)
Theorem get_next_image_each_once {G : Type} {RS : RandomSource G}
    (dir : string) (imgs : list string) (g : G) (lg : list effect) :
  imgs ≠ [] →
  ∃ sel w,
    selections (length imgs) (World (initial_self false dir imgs) g lg) = (sel, Ret () w) ∧
    NoDup sel.*1 ∧
    sel.*1 ≡ₚ range (Z.of_nat (length imgs)) ∧
    (∀ i name, (i, name) ∈ sel → imgs !! Z.to_nat i = Some name) ∧
    sel.*2 ≡ₚ imgs ∧
    get_next_image w = SysExit 0 (World (self w) (gen w) (lg ++ [Print "DONE!"])).
Proof.
  intros _.
  set (w0 := World (initial_self false dir imgs) g lg).
  destruct (selections_pass (length imgs) w0)
    as (sel & w & Hsel & Hlen & Hnd & Hin & Hnames & Himg & Hloop & Hlog & Hfull).
  { intros i Hi. simpl in Hi. by apply not_elem_of_empty in Hi. }
  { change (size (∅ : gset Z) + length imgs = length imgs)%nat.
    by rewrite size_empty. }
  simpl in Hin, Hnames, Himg, Hloop, Hlog.
  assert (sel.*1 ≡ₚ range (Z.of_nat (length imgs))) as Hperm.
  { apply submseteq_length_Permutation.
    - apply NoDup_submseteq; [done|]. intros i Hi.
      apply Hin in Hi as [Hi _]. unfold range. apply elem_of_seqZ. lia.
    - unfold range. rewrite length_seqZ, length_fmap, Hlen. lia. }
  exists sel, w. split_and!; try done.
  - by apply names_of_range.
  - rewrite <- Hlog. apply get_next_image_exit; [by rewrite Hfull|by rewrite Hloop].
Qed.

Lemma get_next_image_each_once_witness :
  ∃ sel w,
    selections 3 (World (initial_self false "pics" ["a.png"; "b.png"; "c.png"])
                    ([5; 1; 0] : list Z) []) = (sel, Ret () w) ∧
    NoDup sel.*1 ∧
    sel.*1 ≡ₚ range 3 ∧
    (∀ i name, (i, name) ∈ sel → ["a.png"; "b.png"; "c.png"] !! Z.to_nat i = Some name) ∧
    sel.*2 ≡ₚ ["a.png"; "b.png"; "c.png"] ∧
    get_next_image w = SysExit 0 (World (self w) (gen w) ([] ++ [Print "DONE!"])).
Proof.
  apply (get_next_image_each_once "pics" ["a.png"; "b.png"; "c.png"] [5; 1; 0] []).
  discriminate.
Defined.

Example three_images_run :
  (selections 4 (World (initial_self false "pics" ["a.png"; "b.png"; "c.png"])
                   ([5; 1; 0] : list Z) [])).1
  = [(2, "c.png"); (1, "b.png"); (0, "a.png")].
Proof. vm_compute. reflexivity. Qed.

(** ** What a returning call did *)


Section Calls.
Context {G : Type} {RS : RandomSource G} {IM : Imaging}.
Implicit Types (w : world G) (s : slideshow).

(** A call of [get_next_image] that returns selected an available index,
    either of the object as it was (pass not complete) or of the cleared
    object (pass complete, looping enabled). *)
Lemma get_next_image_ret w name w' :
  get_next_image w = Ret name w' →
  ∃ i s0,
    ((s0 = self w ∧ length (images (self w)) ≠ size (shown_indices (self w))) ∨
     (s0 = clear_shown (self w) ∧
      length (images (self w)) = size (shown_indices (self w)) ∧
      bLoop (self w) = true)) ∧
    i ∈ available_indices s0 ∧
    images (self w) !! Z.to_nat i = Some name ∧
    w' = World (record_shown i s0) (draw (World s0 (gen w) (log w))).2 (log w).
Proof.
  intros Hret.
  destruct (decide (length (images (self w)) = size (shown_indices (self w)))) as [Heq|Hne].
  - destruct (bLoop (self w)) eqn:Hl.
    + rewrite get_next_image_reset in Hret by done.
      set (wc := World (clear_shown (self w)) (gen w) (log w)) in *.
      destruct (decide (available_indices (self wc) = [])) as [He|Hav].
      { by rewrite select_unshown_empty in Hret. }
      destruct (select_unshown_pick wc Hav) as (i & nm & Hi & _ & Hnm & Hsel).
      rewrite Hsel in Hret. inversion Hret; subst.
      exists i, (clear_shown (self w)). split_and!; try done.
      * right. done.
      * by apply list_elem_of_lookup_2 in Hi.
    + by rewrite get_next_image_exit in Hret.
  - unfold get_next_image, mbind, M_bind in Hret.
    rewrite check_all_shown_continue in Hret by done.
    destruct (decide (available_indices (self w) = [])) as [He|Hav].
    { by rewrite select_unshown_empty in Hret. }
    destruct (select_unshown_pick w Hav) as (i & nm & Hi & _ & Hnm & Hsel).
    rewrite Hsel in Hret. inversion Hret; subst.
    exists i, (self w). split_and!; try done.
    + left. done.
    + by apply list_elem_of_lookup_2 in Hi.
Qed.

(** [show_next_image] when the image loads: rendered, timer armed. *)
Lemma show_next_image_loaded w name w1 p :
  get_next_image w = Ret name w1 →
  load_image (path_join (folder (self w1)) name) (width, height) = Ok p →
  show_next_image w =
    Ret () (World (with_current_image (Some p) (self w1)) (gen w1)
              (log w1 ++ [CanvasDelete "all"] ++
                 [CanvasConfig (photo_width p) (photo_height p)] ++
                 [CanvasCreateImage 0 0 p] ++ [WindowAfter PAUSE])).
Proof.
  intros Hget Hload.
  unfold show_next_image, mbind, M_bind, try_except. rewrite Hget.
  unfold get_self at 1. rewrite Hload. simpl.
  unfold emit, with_current_image. simpl. by rewrite <- !app_assoc.
Qed.

(** [show_next_image] when loading raises: reported, process left. *)
Lemma show_next_image_failed w name w1 e :
  get_next_image w = Ret name w1 →
  load_image (path_join (folder (self w1)) name) (width, height) = Exc e →
  show_next_image w =
    SysExit 0 (World (with_current_image None (self w1)) (gen w1)
                 (log w1 ++ [Print ("Error loading image: " +:+ exn_str e)] ++
                    [Print ("name = " +:+ name)])).
Proof.
  intros Hget Hload.
  unfold show_next_image, mbind, M_bind, try_except. rewrite Hget.
  unfold get_self at 1. rewrite Hload. simpl.
  unfold emit, with_current_image. simpl. by rewrite <- !app_assoc.
Qed.

(** A returning [show_next_image] made one returning selection and left
    everything but [current_image] as the selection left it. *)
Lemma show_next_image_ret w w' :
  show_next_image w = Ret () w' →
  ∃ name w1 p,
    get_next_image w = Ret name w1 ∧
    self w' = with_current_image (Some p) (self w1).
Proof.
  intros Hret.
  destruct (get_next_image w) as [name w1|e w1|c w1] eqn:Hget.
  - destruct (load_image (path_join (folder (self w1)) name) (width, height))
      as [p|e] eqn:Hload.
    + rewrite (show_next_image_loaded w name w1 p) in Hret by done.
      inversion Hret; subst. by exists name, w1, p.
    + by rewrite (show_next_image_failed w name w1 e) in Hret.
  - unfold show_next_image, mbind, M_bind in Hret. by rewrite Hget in Hret.
  - unfold show_next_image, mbind, M_bind in Hret. by rewrite Hget in Hret.
Qed.

End Calls.

(** ** Reachable states *)


Section Invariant.
Context {G : Type} {RS : RandomSource G} {IM : Imaging}.
Implicit Types (w : world G) (s : slideshow).

Lemma get_next_image_preserves w name w' :
  get_next_image w = Ret name w' →
  images (self w') = images (self w) ∧
  bLoop (self w') = bLoop (self w) ∧
  (valid_shown (self w) → valid_shown (self w')).
Proof.
  intros Hret.
  destruct (get_next_image_ret w name w' Hret) as (i & s0 & Hs0 & Hi & _ & ->).
  apply elem_of_available in Hi as [Hi _].
  destruct Hs0 as [[-> _]|[-> _]]; simpl; split_and!; try done.
  - intros Hv. by apply record_shown_valid.
  - intros _. apply record_shown_valid; [|done].
    intros j Hj. simpl in Hj. by apply not_elem_of_empty in Hj.
Qed.

Lemma reachable_inv loop imgs w :
  reachable loop imgs w →
  images (self w) = imgs ∧ bLoop (self w) = loop ∧ valid_shown (self w).
Proof.
  induction 1 as [dir g lg|w name w' _ (Hi & Hl & Hv) Hget|w w' _ (Hi & Hl & Hv) Hshow].
  - by split_and!.
  - destruct (get_next_image_preserves w name w' Hget) as (Hi' & Hl' & Hv').
    split_and!; [congruence|congruence|auto].
  - destruct (show_next_image_ret w w' Hshow) as (name & w1 & p & Hget & Hself).
    destruct (get_next_image_preserves w name w1 Hget) as (Hi' & Hl' & Hv').
    rewrite Hself. simpl. split_and!; [congruence|congruence|].
    intros j Hj. simpl in Hj |- *. by apply Hv'.
Qed.

(** Once something was shown, [current_image_index] is the index shown
    last, and it is in the shown-set. *)
Lemma reachable_current loop imgs w :
  reachable loop imgs w →
  shown_indices (self w) ≠ ∅ →
  current_image_index (self w) ∈ shown_indices (self w).
Proof.
  induction 1 as [dir g lg|w name w' _ IH Hget|w w' _ IH Hshow]; intros Hne.
  - done.
  - destruct (get_next_image_ret w name w' Hget) as (i & s0 & _ & _ & _ & ->).
    simpl. by apply elem_of_union_l, elem_of_singleton.
  - destruct (show_next_image_ret w w' Hshow) as (name & w1 & p & Hget & Hself).
    rewrite Hself. simpl.
    destruct (get_next_image_ret w name w1 Hget) as (i & s0 & _ & _ & _ & ->).
    simpl. by apply elem_of_union_l, elem_of_singleton.
Qed.

End Invariant.

(** C2: in every reachable state, with or without looping, every index of
    the shown-set is an index into the image set and the shown-set holds at
    most N indices.  When it holds exactly N, the next selection leaves the
    process (looping disabled) or goes on from the cleared shown-set
    (looping enabled); when it holds fewer, the next selection does
    neither: it returns, having added one index that was not shown. *)
Theorem shown_indices_invariant {G : Type} {RS : RandomSource G} {IM : Imaging}
    (loop : bool) (imgs : list string) (w : world G) :
  reachable loop imgs w →
  let N := length imgs in
  (∀ i, i ∈ shown_indices (self w) → 0 ≤ i < Z.of_nat N) ∧
  (size (shown_indices (self w)) ≤ N)%nat ∧
  (size (shown_indices (self w)) = N →
   get_next_image w =
     if loop
     then select_unshown (World (clear_shown (self w)) (gen w) (log w))
     else SysExit 0 (World (self w) (gen w) (log w ++ [Print "DONE!"]))) ∧
  (size (shown_indices (self w)) ≠ N →
   ∃ i name,
     (i ∉ shown_indices (self w)) ∧
     get_next_image w = Ret name (World (record_shown i (self w)) (draw w).2 (log w))).
Proof.
  intros Hreach N.
  destruct (reachable_inv loop imgs w Hreach) as (Himg & Hloop & Hv).
  subst N. rewrite <- Himg. split_and!.
  - done.
  - by apply valid_shown_size.
  - intros Hsz. destruct loop.
    + by apply get_next_image_reset.
    + by apply get_next_image_exit.
  - intros Hsz.
    destruct (get_next_image_continue w) as (i & name & _ & Hni & _ & Hget);
      [done|congruence|].
    by exists i, name.
Qed.

Lemma shown_indices_invariant_witness :
  reachable (IM := sample_imaging) false sample_images sample_world ∧
  (∀ i, i ∈ shown_indices (self sample_world) → 0 ≤ i < 3) ∧
  (size (shown_indices (self sample_world)) ≤ 3)%nat.
Proof.
  assert (reachable (IM := sample_imaging) false sample_images sample_world) as Hr.
  { apply (reach_select false sample_images
             (World (initial_self false "pics" sample_images) [5; 1; 0] [])
             "c.png" sample_world).
    - apply reach_init.
    - vm_compute. reflexivity. }
  split; [exact Hr|].
  destruct (shown_indices_invariant false sample_images sample_world Hr) as (H1 & H2 & _).
  split; [exact H1|exact H2].
Defined.

(** ** The pass boundary with looping enabled *)

Section Restart.
Context {G : Type} {RS : RandomSource G}.
Implicit Types (w : world G) (s : slideshow).

(** The selection that finds a non-empty image set fully shown clears
    the shown-set and returns the image at the index drawn among all N. *)
Lemma get_next_image_after_reset w :
  bLoop (self w) = true →
  images (self w) ≠ [] →
  size (shown_indices (self w)) = length (images (self w)) →
  let N := Z.of_nat (length (images (self w))) in
  let i := (randbelow (gen w) N).1 in
  ∃ name,
    available_indices (clear_shown (self w)) = range N ∧
    (0 ≤ i < N) ∧
    images (self w) !! Z.to_nat i = Some name ∧
    get_next_image w =
      Ret name (World (record_shown i (clear_shown (self w)))
                  (randbelow (gen w) N).2 (log w)).
Proof.
  intros Hl Hne Hsz N i.
  rewrite get_next_image_reset by done.
  set (wc := World (clear_shown (self w)) (gen w) (log w)).
  assert (available_indices (self wc) = range N) as Hav by by apply available_all.
  assert (length (available_indices (self wc)) = length (images (self w))) as Hlen.
  { rewrite Hav. unfold range, N. rewrite length_seqZ. lia. }
  destruct (select_unshown_pick wc) as (j & name & Hj & Hk & Hname & Hsel).
  { rewrite Hav. unfold range, N. intros Hnil.
    apply (f_equal length) in Hnil. rewrite length_seqZ in Hnil.
    destruct (images (self w)); [done|simpl in Hnil; lia]. }
  assert ((draw wc) = randbelow (gen w) N) as Hdraw.
  { unfold draw. by rewrite Hlen. }
  rewrite Hdraw in Hj, Hk, Hsel. fold i in Hj, Hk.
  rewrite Hav in Hj. unfold range in Hj. apply lookup_seqZ in Hj as [Hj _].
  assert (j = i) as -> by lia.
  exists name. split_and!; try done; rewrite Hlen in Hk; unfold N; lia.
Qed.

End Restart.

(** C5: with looping enabled and a non-empty image set of size N, a
    selection called with N indices in the shown-set clears the set, selects
    among all of 0 .. N-1 (the availability list is the whole range and the
    selected index is the draw itself), and leaves a shown-set that holds
    exactly the index just selected: its size is 1. *)
Theorem loop_reset_size_one {G : Type} {RS : RandomSource G} (w : world G) :
  bLoop (self w) = true →
  images (self w) ≠ [] →
  size (shown_indices (self w)) = length (images (self w)) →
  let N := Z.of_nat (length (images (self w))) in
  let i := (randbelow (gen w) N).1 in
  ∃ name w',
    get_next_image w = Ret name w' ∧
    available_indices (clear_shown (self w)) = range N ∧
    (0 ≤ i < N) ∧
    current_image_index (self w') = i ∧
    images (self w) !! Z.to_nat i = Some name ∧
    shown_indices (self w') = {[ i ]} ∧
    size (shown_indices (self w')) = 1%nat.
Proof.
  intros Hl Hne Hsz N i.
  destruct (get_next_image_after_reset w Hl Hne Hsz) as (name & Hav & Hi & Hname & Hget).
  eexists name, _. split; [exact Hget|].
  cbn [self record_shown clear_shown shown_indices current_image_index].
  rewrite (right_id_L ∅ (∪)).
  split; [done|]. split; [exact Hi|]. split; [done|]. split; [done|].
  split; [done|]. apply size_singleton.
Qed.


Lemma loop_reset_size_one_witness :
  ∃ name w',
    get_next_image sample_full_world = Ret name w' ∧
    size (shown_indices (self w')) = 1%nat.
Proof.
  destruct (loop_reset_size_one sample_full_world)
    as (name & w' & Hget & _ & _ & _ & _ & _ & Hsz).
  - reflexivity.
  - discriminate.
  - vm_compute. reflexivity.
  - exists name, w'. split; [exact Hget|exact Hsz].
Defined.

(** C10: with looping enabled nothing carries over the pass boundary.  In
    any reachable state whose shown-set is full (the image set not being
    empty), the index shown last is in the shown-set of the pass just
    completed, and some outcome of the random source makes the
    reset-triggering selection select that very index again: the same image
    is displayed twice in a row. *)
Theorem loop_restart_can_repeat {IM : Imaging} (imgs : list string) (w : world (list Z)) :
  reachable true imgs w →
  imgs ≠ [] →
  size (shown_indices (self w)) = length imgs →
  ∃ script name w',
    current_image_index (self w) ∈ shown_indices (self w) ∧
    get_next_image (World (self w) script (log w)) = Ret name w' ∧
    current_image_index (self w') = current_image_index (self w) ∧
    imgs !! Z.to_nat (current_image_index (self w)) = Some name.
Proof.
  intros Hreach Hne Hsz.
  destruct (reachable_inv true imgs w Hreach) as (Himg & Hl & Hv).
  assert (current_image_index (self w) ∈ shown_indices (self w)) as Hcur.
  { apply (reachable_current true imgs w Hreach). intros He.
    rewrite He, size_empty in Hsz. by destruct imgs. }
  pose proof (Hv _ Hcur) as Hi.
  set (i := current_image_index (self w)) in *.
  set (w1 := World (self w) [i] (log w)).
  destruct (get_next_image_after_reset w1) as (name & _ & _ & Hname & Hget).
  { done. }
  { simpl. by rewrite Himg. }
  { simpl. by rewrite Himg. }
  simpl in Hname, Hget. rewrite Z.mod_small in Hname, Hget by lia.
  rewrite Himg in Hname.
  eexists [i], name, _. split; [done|]. split; [exact Hget|]. by split.
Qed.

Lemma loop_restart_can_repeat_witness :
  reachable (IM := sample_imaging) true ["a.png"; "b.png"] sample_full_world ∧
  ∃ script name w',
    get_next_image (World (self sample_full_world) script (log sample_full_world))
      = Ret name w' ∧
    current_image_index (self w') = 1.
Proof.
  assert (reachable (IM := sample_imaging) true ["a.png"; "b.png"] sample_full_world) as Hr.
  { apply (reach_select true ["a.png"; "b.png"]
             (World (record_shown 0 (initial_self true "pics" ["a.png"; "b.png"])) [0; 7] [])
             "b.png" sample_full_world).
    - apply (reach_select true ["a.png"; "b.png"]
               (World (initial_self true "pics" ["a.png"; "b.png"]) [0; 0; 7] [])
               "a.png").
      + apply reach_init.
      + vm_compute. reflexivity.
    - vm_compute. reflexivity. }
  split; [exact Hr|].
  destruct (loop_restart_can_repeat (IM := sample_imaging) ["a.png"; "b.png"]
              sample_full_world Hr)
    as (script & name & w' & _ & Hget & Hcur & _).
  - discriminate.
  - vm_compute. reflexivity.
  - exists script, name, w'. split; [exact Hget|exact Hcur].
Defined.

Example two_images_loop_run :
  (selections 3 (World (initial_self true "pics" ["a.png"; "b.png"])
                   ([0; 0; 1] : list Z) [])).1
  = [(0, "a.png"); (1, "b.png"); (1, "b.png")].
Proof. vm_compute. reflexivity. Qed.

(** ** The empty image set *)

(** C4: the first selection over an empty image set raises nothing.  In
    the object [__init__] builds ([bLoop] is [False], line 27) it finds the
    set exhausted at once, since [0 == 0], prints [DONE!] and leaves
    through [sys.exit(0)] before [random.choice] is reached; so does the
    [show_next_image] that makes it. *)
Theorem empty_set_exits_without_loop {G : Type} {RS : RandomSource G} {IM : Imaging}
    (dir : string) (g : G) (lg : list effect) :
  let w := World (initial_self false dir []) g lg in
  get_next_image w = SysExit 0 (World (initial_self false dir []) g (lg ++ [Print "DONE!"])) ∧
  show_next_image w = SysExit 0 (World (initial_self false dir []) g (lg ++ [Print "DONE!"])).
Proof.
  intros w.
  assert (get_next_image w =
          SysExit 0 (World (initial_self false dir []) g (lg ++ [Print "DONE!"]))) as Hget.
  { by apply (get_next_image_exit w). }
  split; [exact Hget|].
  unfold show_next_image, mbind, M_bind. by rewrite Hget.
Qed.

(** ** The failure path of [show_next_image] *)

Section Failure.
Context {G : Type} {RS : RandomSource G} {IM : Imaging}.

(** What makes [load_image] raise: opening, computing the scaled size,
    resizing, or wrapping the image for Tk. *)
Lemma load_image_raises path target e :
  load_image path target = Exc e ↔
  Image_open path = Exc e ∨
  ∃ img, Image_open path = Ok img ∧
    (calculate_scaled_size (img_size img) target = Exc e ∨
     ∃ scaled, calculate_scaled_size (img_size img) target = Ok scaled ∧
       (Image_resize img scaled = Exc e ∨
        ∃ img', Image_resize img scaled = Ok img' ∧ ImageTk_PhotoImage img' = Exc e)).
Proof.
  unfold load_image. destruct target as [tw th].
  destruct (Image_open path) as [img|e0] eqn:Ho; simpl.
  - destruct (calculate_scaled_size (img_size img) (tw, th)) as [scaled|e1] eqn:Hc; simpl.
    + destruct (Image_resize img scaled) as [img'|e2] eqn:Hr; simpl.
      * split.
        -- intros Hp. right. exists img. split; [done|]. right. exists scaled.
           split; [done|]. right. by exists img'.
        -- intros [Hf|(img0 & Himg & [Hf|(sc0 & Hsc & [Hf|(img1 & Hr1 & Hp)])])];
             simplify_eq; congruence.
      * split.
        -- intros Hp. right. exists img. split; [done|]. right. exists scaled.
           split; [done|]. left. congruence.
        -- intros [Hf|(img0 & Himg & [Hf|(sc0 & Hsc & [Hf|(img1 & Hr1 & Hp)])])];
             simplify_eq; congruence.
    + split.
      * intros Hp. right. exists img. split; [done|]. left. congruence.
      * intros [Hf|(img0 & Himg & [Hf|(sc0 & Hsc & _)])]; simplify_eq; congruence.
  - split.
    + intros Hp. left. congruence.
    + intros [Hf|(img0 & Himg & _)]; simplify_eq; congruence.
Qed.

Lemma get_next_image_log (w w1 : world G) name :
  get_next_image w = Ret name w1 → log w1 = log w.
Proof.
  intros Hget. by destruct (get_next_image_ret w name w1 Hget) as (i & s0 & _ & _ & _ & ->).
Qed.

End Failure.

(** C6: when loading the image whose name the selection returned raises
    (while decoding or while scaling), [show_next_image] prints the error
    and then the file name, and leaves the process through [sys.exit(0)].
    Nothing else happens after the selection: no canvas command is issued
    (no partial render), no timer is armed and no second attempt is made
    (no retry), and [current_image] is [None] (no fallback image). *)
Theorem load_failure_exits {G : Type} {RS : RandomSource G} {IM : Imaging}
    (w w1 : world G) (name : string) (e : exn) :
  get_next_image w = Ret name w1 →
  load_image (path_join (folder (self w1)) name) (width, height) = Exc e →
  ∃ w2,
    show_next_image w = SysExit 0 w2 ∧
    log w2 = log w ++ [Print ("Error loading image: " +:+ exn_str e);
                        Print ("name = " +:+ name)] ∧
    current_image (self w2) = None ∧
    shown_indices (self w2) = shown_indices (self w1) ∧
    current_image_index (self w2) = current_image_index (self w1) ∧
    gen w2 = gen w1.
Proof.
  intros Hget Hload.
  eexists. split; [by apply (show_next_image_failed w name w1 e)|].
  simpl. by rewrite (get_next_image_log w w1 name).
Qed.


Lemma load_failure_exits_witness :
  ∃ w2,
    show_next_image (IM := sample_imaging) sample_broken_world = SysExit 0 w2 ∧
    log w2 = [Print "Error loading image: cannot identify image file";
              Print "name = broken.png"].
Proof.
  destruct (load_failure_exits (IM := sample_imaging) sample_broken_world
              (World (record_shown 0 (initial_self false "pics" ["broken.png"])) [] [])
              "broken.png" (Exn OtherException "cannot identify image file"))
    as (w2 & Hshow & Hlog & _).
  - vm_compute. reflexivity.
  - vm_compute. reflexivity.
  - exists w2. split; [exact Hshow|exact Hlog].
Defined.

(** ** Determinism in the seed *)


Section Determinism.
Context {G : Type} {RS : RandomSource G}.

Lemma get_next_image_same (w1 w2 : world G) :
  same_selection_state w1 w2 →
  match get_next_image w1, get_next_image w2 with
  | Ret n1 w1', Ret n2 w2' =>
      n1 = n2 ∧
      current_image_index (self w1') = current_image_index (self w2') ∧
      same_selection_state w1' w2'
  | Raise e1 _, Raise e2 _ => e1 = e2
  | SysExit c1 _, SysExit c2 _ => c1 = c2
  | _, _ => False
  end.
Proof.
  destruct w1 as [[f1 l1 b1 sh1 c1 im1 p1] g1 lg1].
  destruct w2 as [[f2 l2 b2 sh2 c2 im2 p2] g2 lg2].
  intros (Him & Hsh & Hl & Hg). simpl in *. subst.
  unfold get_next_image, check_all_shown, select_unshown, random_choice,
    mbind, M_bind, get_self, set_shown_indices, set_current_image_index,
    put_self, print, emit, sys_exit, mret, M_ret, available_indices.
  simpl.
  destruct (Nat.eqb _ _); [destruct l2|]; simpl; try done.
  - destruct (filter _ _) as [|a l]; [done|].
    destruct (randbelow g2 _) as [k g']. simpl.
    destruct (list_getitem (a :: l) k) as [i|e]; simpl; [|done].
    destruct (list_getitem im2 i) as [nm|e]; simpl; done.
  - destruct (filter _ _) as [|a l]; [done|].
    destruct (randbelow g2 _) as [k g']. simpl.
    destruct (list_getitem (a :: l) k) as [i|e]; simpl; [|done].
    destruct (list_getitem im2 i) as [nm|e]; simpl; done.
Qed.

Lemma selections_same n (w1 w2 : world G) :
  same_selection_state w1 w2 →
  (selections n w1).1 = (selections n w2).1.
Proof.
  revert w1 w2. induction n as [|n IH]; intros w1 w2 Hs; [done|].
  simpl. pose proof (get_next_image_same w1 w2 Hs) as Hstep.
  destruct (get_next_image w1) as [n1 w1'|e1 w1'|c1 w1'],
           (get_next_image w2) as [n2 w2'|e2 w2'|c2 w2']; try done.
  destruct Hstep as (-> & Hcur & Hs').
  specialize (IH w1' w2' Hs').
  destruct (selections n w1') as [s1 r1], (selections n w2') as [s2 r2].
  simpl in *. by rewrite Hcur, IH.
Qed.

End Determinism.

(** C7: the visiting order is a function of the seed and the image set:
    two runs over the same image set that start the random source from the
    same seed select the same indices and names in the same order, call
    after call, whatever else differs between them (the folder path, what
    was printed or drawn before). *)
Theorem same_seed_same_order {G : Type} {RS : RandomSource G}
    (loop : bool) (imgs : list string) (seed : G)
    (dir1 dir2 : string) (lg1 lg2 : list effect) (n : nat) :
  (selections n (World (initial_self loop dir1 imgs) seed lg1)).1 =
  (selections n (World (initial_self loop dir2 imgs) seed lg2)).1.
Proof. by apply selections_same. Qed.

(** ** The image set is built once and never modified *)


Section Frame.
Context {G : Type} {RS : RandomSource G} {FS : FileSystem} {IM : Imaging}.

Lemma keeps_images_bind {A B} (m : M G A) (k : A → M G B) :
  keeps_images m → (∀ a, keeps_images (k a)) → keeps_images (m ≫= k).
Proof.
  intros Hm Hk w. unfold mbind, M_bind.
  specialize (Hm w). destruct (m w) as [a w'|e w'|c w']; simpl in *; [|done|done].
  by rewrite Hk.
Qed.

Lemma keeps_images_try {A} (body : M G A) (handler : exn → M G A) :
  keeps_images body → (∀ e, keeps_images (handler e)) →
  keeps_images (try_except body handler).
Proof.
  intros Hb Hh w. unfold try_except.
  specialize (Hb w). destruct (body w) as [a w'|e w'|c w']; simpl in *; [done| |done].
  by rewrite Hh.
Qed.

Lemma keeps_images_get_self : keeps_images (get_self (G := G)).
Proof. by intros w. Qed.

Lemma keeps_images_emit e : keeps_images (emit (G := G) e).
Proof. by intros w. Qed.

Lemma keeps_images_ret {A} (a : A) : keeps_images (mret a : M G A).
Proof. by intros w. Qed.

Lemma keeps_images_exit {A} c : keeps_images (sys_exit c : M G A).
Proof. by intros w. Qed.

Lemma keeps_images_lift {A} (r : pyres A) : keeps_images (lift r : M G A).
Proof. by destruct r; intros w. Qed.

Lemma keeps_images_set_shown x : keeps_images (set_shown_indices (G := G) x).
Proof. by intros w. Qed.

Lemma keeps_images_set_index i : keeps_images (set_current_image_index (G := G) i).
Proof. by intros w. Qed.

Lemma keeps_images_set_image p : keeps_images (set_current_image (G := G) p).
Proof. by intros w. Qed.

Lemma keeps_images_choice {A} (seq : list A) : keeps_images (random_choice seq).
Proof.
  intros w. unfold random_choice. destruct seq as [|a l]; [done|].
  destruct (randbelow _ _) as [k g']. by destruct (list_getitem _ _).
Qed.

Hint Resolve keeps_images_get_self keeps_images_emit keeps_images_ret
  keeps_images_exit keeps_images_lift keeps_images_set_shown
  keeps_images_set_index keeps_images_set_image keeps_images_choice : frame.

Ltac solve_frame :=
  repeat first
    [ solve [auto with frame]
    | apply keeps_images_bind; [|intros ?]
    | apply keeps_images_try; [|intros ?] ].

Lemma keeps_images_check_all_shown : keeps_images (check_all_shown (G := G)).
Proof.
  unfold check_all_shown, print.
  apply keeps_images_bind; [solve_frame|intros s].
  destruct (Nat.eqb _ _); [destruct (negb _)|]; solve_frame.
Qed.

Lemma keeps_images_select_unshown : keeps_images select_unshown.
Proof. unfold select_unshown. solve_frame. Qed.

Lemma keeps_images_get_next_image : keeps_images get_next_image.
Proof.
  unfold get_next_image.
  apply keeps_images_bind;
    [apply keeps_images_check_all_shown|intros ?; apply keeps_images_select_unshown].
Qed.

Lemma keeps_images_show_image p : keeps_images (show_image (G := G) p).
Proof. unfold show_image. solve_frame. Qed.

Lemma keeps_images_show_next_image : keeps_images show_next_image.
Proof.
  unfold show_next_image, print.
  apply keeps_images_bind; [apply keeps_images_get_next_image|intros name].
  apply keeps_images_bind; [|intros ?; solve_frame].
  apply keeps_images_try; [|intros e; solve_frame].
  apply keeps_images_bind; [solve_frame|intros s].
  apply keeps_images_bind; [solve_frame|intros p].
  apply keeps_images_bind; [solve_frame|intros ?]. apply keeps_images_show_image.
Qed.

Lemma keeps_images_mainloop ticks : keeps_images (mainloop ticks).
Proof.
  induction ticks as [|n IH]; simpl; [solve_frame|].
  apply keeps_images_bind; [apply keeps_images_show_next_image|by intros ?].
Qed.

(** The loop of [get_images] over readable entries: it appends, in order,
    the entries that pass the test of line 67. *)
Lemma get_images_loop_readable dir entries image_files :
  readable_entries dir entries →
  get_images_loop dir entries image_files =
    Ok (image_files ++ filter (λ name, recognised dir name) entries).
Proof.
  intros Hr. revert image_files.
  induction Hr as [|name rest Hname _ IH]; intros image_files.
  { simpl. by rewrite app_nil_r. }
  cbn [get_images_loop]. unfold recognised at 1.
  rewrite filter_cons. unfold recognised at 1.
  destruct (os_path_isfile (path_join dir name)) eqn:Hf.
  - destruct (Hname eq_refl) as [what Hwhat]. rewrite Hwhat.
    cbn [pyres_bind andb]. rewrite IH.
    destruct (truthy what); simpl; [by rewrite <- app_assoc|done].
  - cbn [pyres_bind andb]. rewrite IH. done.
Qed.

(** The loop stops at the first regular file that cannot be opened. *)
Lemma get_images_loop_raises dir pre name post image_files e :
  readable_entries dir pre →
  os_path_isfile (path_join dir name) = true →
  imghdr_what (path_join dir name) = Exc e →
  get_images_loop dir (pre ++ name :: post) image_files = Exc e.
Proof.
  intros Hr Hf He. revert image_files.
  induction Hr as [|first rest Hfirst _ IH]; intros image_files.
  { cbn [app get_images_loop]. by rewrite Hf, He. }
  cbn [app get_images_loop].
  destruct (os_path_isfile (path_join dir first)) eqn:Hf1.
  - destruct (Hfirst eq_refl) as [what Hwhat]. rewrite Hwhat.
    cbn [pyres_bind]. apply IH.
  - cbn [pyres_bind]. apply IH.
Qed.

(** What [get_images] keeps of a listing whose files can be opened. *)
Lemma get_images_spec dir entries :
  os_listdir dir = Ok entries →
  readable_entries dir entries →
  ∃ imgs,
    get_images dir = Ok imgs ∧
    imgs `sublist_of` entries ∧
    ∀ name, name ∈ imgs ↔
      name ∈ entries ∧
      os_path_isfile (path_join dir name) = true ∧
      ∃ fmt, imghdr_what (path_join dir name) = Ok (Some fmt) ∧ fmt ≠ EmptyString.
Proof.
  intros Hls Hr. unfold get_images. rewrite Hls. cbn [pyres_bind].
  rewrite (get_images_loop_readable dir entries [] Hr). cbn [app].
  eexists. split; [done|]. split; [apply sublist_filter|].
  intros name. rewrite list_elem_of_filter. unfold recognised.
  rewrite andb_True, Is_true_true.
  destruct (imghdr_what (path_join dir name)) as [[fmt|]|e]; unfold truthy.
  - rewrite negb_True, bool_decide_spec. split.
    + intros [[? ?] ?]. split_and!; [done|done|]. by exists fmt.
    + intros (? & ? & fmt' & [= <-] & ?). done.
  - split; [intros [[? []] _]|intros (_ & _ & fmt' & [=] & _)].
  - split; [intros [[? []] _]|intros (_ & _ & fmt' & [=] & _)].
Qed.

End Frame.

(** C8: [__init__] builds the image set once, from the listing of the
    folder's direct entries: when the folder can be listed and each of its
    regular files can be opened for inspection, it keeps, in listing order,
    exactly the entries that are regular files and whose content [imghdr]
    recognises (sub-folders and other files are skipped).  Nothing modifies
    it afterwards: selection (with its loop reset), rendering and whole
    timer ticks leave it as they found it however they end ([load_image]
    cannot reach the object at all), so it is the same list after any
    number of ticks of the session. *)
Theorem images_built_once {G : Type} {RS : RandomSource G} {FS : FileSystem} {IM : Imaging}
    (loop : bool) (dir : string) (screen : Z * Z) (g : G) (entries : list string) :
  os_listdir dir = Ok entries →
  readable_entries dir entries →
  ∃ imgs w0,
    construct loop dir screen g = Ret () w0 ∧
    images (self w0) = imgs ∧
    imgs `sublist_of` entries ∧
    (∀ name, name ∈ imgs ↔
       name ∈ entries ∧
       os_path_isfile (path_join dir name) = true ∧
       ∃ fmt, imghdr_what (path_join dir name) = Ok (Some fmt) ∧ fmt ≠ EmptyString) ∧
    keeps_images (G := G) get_next_image ∧
    (∀ p, keeps_images (G := G) (show_image p)) ∧
    keeps_images (G := G) show_next_image ∧
    (∀ ticks, images (self (final (run loop dir screen g ticks))) = imgs).
Proof.
  intros Hls Hread.
  destruct (get_images_spec dir entries Hls Hread) as (imgs & Hget & Hsub & Hmem).
  destruct screen as [sw sh].
  assert (construct loop dir (sw, sh) g =
          Ret () (World (initial_self loop dir imgs) g
                    [WindowGeometry width height (sw - width) (sh - height); CanvasPack]))
    as Hc by (unfold construct; by rewrite Hget).
  eexists imgs, _. split; [exact Hc|].
  split; [done|]. split; [done|]. split; [done|].
  split; [apply keeps_images_get_next_image|].
  split; [apply keeps_images_show_image|].
  split; [apply keeps_images_show_next_image|].
  intros ticks. unfold run. rewrite Hc.
  pose proof (keeps_images_bind show_next_image (λ _, mainloop ticks)
                keeps_images_show_next_image (λ _, keeps_images_mainloop ticks)) as Hk.
  by rewrite Hk.
Qed.

Lemma images_built_once_witness :
  ∃ w0,
    construct (FS := sample_fs) false "pics" (1920, 1080) ([3; 1] : list Z) = Ret () w0 ∧
    images (self w0) = ["a.png"; "b.jpg"] ∧
    ∀ ticks,
      images (self (final (run (RS := scripted) (FS := sample_fs) (IM := sample_imaging)
                             false "pics" (1920, 1080) [3; 1] ticks))) = ["a.png"; "b.jpg"].
Proof.
  destruct (images_built_once (RS := scripted) (FS := sample_fs) (IM := sample_imaging)
              false "pics" (1920, 1080) [3; 1] ["a.png"; "notes.txt"; "nested"; "b.jpg"])
    as (imgs & w0 & Hc & Himg & _ & _ & _ & _ & _ & Hrun).
  - reflexivity.
  - repeat constructor; intros _; eexists; reflexivity.
  - assert (imgs = ["a.png"; "b.jpg"]) as ->.
    { rewrite <- Himg. vm_compute in Hc. by inversion Hc. }
    exists w0. split; [exact Hc|]. split; [exact Himg|exact Hrun].
Defined.

(** ** Scaling *)

Example scaled_square : calculate_scaled_size (1000, 1000) (500, 500) = Ok (500, 500).
Proof. vm_compute. reflexivity. Qed.

Example scaled_long : calculate_scaled_size (10000, 1) (500, 500) = Ok (500, 0).
Proof. vm_compute. reflexivity. Qed.

(** C3 (the scaled size fits the box and one of its dimensions equals its
    bound) does not hold of the code: a 19x19 image in the 500x500 box
    comes out as 499x499.  The quotient 500/19 rounds down in binary64, the
    product 19 * (500/19) is just below 500 and [int] truncates it. *)
Theorem scaled_size_misses_bound :
  calculate_scaled_size (19, 19) (500, 500) = Ok (499, 499).
Proof. vm_compute. reflexivity. Qed.

(** C9: positive input dimensions do not guarantee positive scaled
    dimensions: in the 500x500 box a 10000x1 image is scaled to 500x0. *)
Theorem scaled_size_can_be_zero :
  ∃ W H w h,
    0 < W ∧ 0 < H ∧
    calculate_scaled_size (W, H) (width, height) = Ok (w, h) ∧
    (w = 0 ∨ h = 0).
Proof.
  exists 10000, 1, 500, 0. split; [lia|]. split; [lia|].
  split; [vm_compute; reflexivity|by right].
Qed.

(** * Beyond the claims *)

(** ** Whole ticks and whole sessions *)

Section Session.
Context {G : Type} {RS : RandomSource G} {IM : Imaging}.
Implicit Types (w : world G) (s : slideshow).

Lemma canvas_items_tick lg p :
  canvas_items (lg ++ tick_effects p) = [(0, 0, p)].
Proof. unfold canvas_items, tick_effects. by rewrite foldl_app. Qed.

Lemma canvas_size_tick lg p :
  canvas_size (lg ++ tick_effects p) = Some (photo_width p, photo_height p).
Proof. unfold canvas_size, tick_effects. by rewrite foldl_app. Qed.

Lemma drawn_app lg1 lg2 : drawn (lg1 ++ lg2) = drawn lg1 ++ drawn lg2.
Proof. apply omap_app. Qed.

Lemma timers_app lg1 lg2 : timers (lg1 ++ lg2) = timers lg1 ++ timers lg2.
Proof. apply omap_app. Qed.

Lemma printed_app lg1 lg2 : printed (lg1 ++ lg2) = printed lg1 ++ printed lg2.
Proof. apply omap_app. Qed.

(** A returning tick, spelled out. *)
Lemma show_next_image_ret_log w w' :
  show_next_image w = Ret () w' →
  ∃ name w1 p,
    get_next_image w = Ret name w1 ∧
    load_image (path_join (folder (self w1)) name) (width, height) = Ok p ∧
    w' = World (with_current_image (Some p) (self w1)) (gen w1) (log w ++ tick_effects p).
Proof.
  intros Hret.
  destruct (get_next_image w) as [name w1|e w1|c w1] eqn:Hget.
  - destruct (load_image (path_join (folder (self w1)) name) (width, height))
      as [p|e] eqn:Hload.
    + rewrite (show_next_image_loaded w name w1 p) in Hret by done.
      inversion Hret; subst. exists name, w1, p. split_and!; try done.
      by rewrite (get_next_image_log w w1 name).
    + by rewrite (show_next_image_failed w name w1 e) in Hret.
  - unfold show_next_image, mbind, M_bind in Hret. by rewrite Hget in Hret.
  - unfold show_next_image, mbind, M_bind in Hret. by rewrite Hget in Hret.
Qed.

Lemma session_inv_record loop dir imgs s i :
  images s = imgs → folder s = dir → bLoop s = loop → valid_shown s →
  0 ≤ i < Z.of_nat (length imgs) →
  ∀ p g lg, session_inv loop dir imgs
              (World (with_current_image p (record_shown i s)) g lg : world G).
Proof.
  intros Hi Hd Hl Hv Hr p g lg. subst imgs. split_and!; try done.
  intros j Hj. simpl in Hj |- *. by apply (record_shown_valid i s Hv Hr).
Qed.

(** A tick in the middle of a pass: the selected image is rendered and one
    more index is shown. *)
Lemma tick_continue loop dir imgs w :
  session_inv loop dir imgs w → loadable dir imgs →
  size (shown_indices (self w)) ≠ length imgs →
  ∃ p w',
    show_next_image w = Ret () w' ∧
    log w' = log w ++ tick_effects p ∧
    session_inv loop dir imgs w' ∧
    size (shown_indices (self w')) = S (size (shown_indices (self w))).
Proof.
  intros (Himg & Hdir & Hloop & Hv) Hload Hsz.
  destruct (get_next_image_continue w) as (i & name & Hi & Hni & Hname & Hget);
    [done|congruence|].
  destruct (Hload name) as [p Hp].
  { rewrite <- Himg. by apply list_elem_of_lookup_2 in Hname. }
  rewrite <- Hdir in Hp.
  pose proof (show_next_image_loaded w name _ p Hget Hp) as Hshow.
  eexists p, _. split; [exact Hshow|].
  split_and!.
  - done.
  - apply session_inv_record; try done. by rewrite <- Himg.
  - change (size (shown_indices (record_shown i (self w))) =
            S (size (shown_indices (self w)))).
    by rewrite record_shown_size.
Qed.

(** The tick that finds the pass complete with looping enabled: the set is
    cleared and an image is rendered all the same. *)
Lemma tick_restart dir imgs w :
  session_inv true dir imgs w → loadable dir imgs → imgs ≠ [] →
  size (shown_indices (self w)) = length imgs →
  ∃ p w',
    show_next_image w = Ret () w' ∧
    log w' = log w ++ tick_effects p ∧
    session_inv true dir imgs w' ∧
    size (shown_indices (self w')) = 1%nat.
Proof.
  intros (Himg & Hdir & Hloop & Hv) Hload Hne Hsz.
  destruct (get_next_image_after_reset w) as (name & _ & Hi & Hname & Hget);
    [done|by rewrite Himg|by rewrite Himg|].
  destruct (Hload name) as [p Hp].
  { rewrite <- Himg. by apply list_elem_of_lookup_2 in Hname. }
  rewrite <- Hdir in Hp.
  pose proof (show_next_image_loaded w name _ p Hget Hp) as Hshow.
  eexists p, _. split; [exact Hshow|].
  split_and!.
  - done.
  - apply (session_inv_record true dir imgs (clear_shown (self w))); try done.
    by rewrite <- Himg.
  - cbn [self with_current_image record_shown clear_shown shown_indices].
    rewrite (right_id_L ∅ (∪)). apply size_singleton.
Qed.

(** The tick that finds the pass complete with looping disabled. *)
Lemma tick_done dir imgs w :
  session_inv false dir imgs w →
  size (shown_indices (self w)) = length imgs →
  show_next_image w = SysExit 0 (World (self w) (gen w) (log w ++ [Print "DONE!"])).
Proof.
  intros (Himg & Hdir & Hloop & Hv) Hsz.
  unfold show_next_image, mbind, M_bind.
  by rewrite get_next_image_exit by congruence.
Qed.

(** With looping disabled, [n] ticks complete a pass that misses [n]
    images, and the next tick ends the session. *)
Lemma mainloop_pass dir imgs n k w :
  session_inv false dir imgs w → loadable dir imgs →
  (size (shown_indices (self w)) + n = length imgs)%nat →
  ∃ lg w',
    mainloop (n + S k) w = SysExit 0 w' ∧
    log w' = log w ++ lg ++ [Print "DONE!"] ∧
    length (drawn lg) = n ∧ timers lg = replicate n PAUSE ∧ printed lg = [].
Proof.
  revert w. induction n as [|n IH]; intros w Hinv Hload Hsz.
  - exists [], (World (self w) (gen w) (log w ++ [Print "DONE!"])).
    simpl. unfold mbind, M_bind. rewrite (tick_done dir imgs) by (done || lia).
    done.
  - destruct (tick_continue false dir imgs w) as (p & w1 & Hshow & Hlog & Hinv1 & Hsz1);
      [done|done|lia|].
    destruct (IH w1) as (lg & w' & Hloop & Hlog' & Hd & Ht & Hp); [done|done|lia|].
    exists (tick_effects p ++ lg), w'.
    change (S n + S k)%nat with (S (n + S k)). simpl mainloop.
    unfold mbind, M_bind at 1. rewrite Hshow. fold (@mbind (M G) _).
    split_and!.
    + exact Hloop.
    + rewrite Hlog', Hlog. by rewrite <- !app_assoc.
    + rewrite drawn_app, length_app, Hd. done.
    + rewrite timers_app, Ht. done.
    + rewrite printed_app, Hp. done.
Qed.

(** With looping enabled and loadable images, ticks go on for ever. *)
Lemma mainloop_loop dir imgs n w :
  session_inv true dir imgs w → loadable dir imgs → imgs ≠ [] →
  ∃ lg w',
    mainloop n w = Ret () w' ∧
    log w' = log w ++ lg ∧
    length (drawn lg) = n ∧ timers lg = replicate n PAUSE ∧ printed lg = [].
Proof.
  intros Hinv Hload Hne. revert w Hinv.
  induction n as [|n IH]; intros w Hinv.
  - exists [], w. simpl. by rewrite app_nil_r.
  - assert (∃ p w1, show_next_image w = Ret () w1 ∧ log w1 = log w ++ tick_effects p ∧
                    session_inv true dir imgs w1) as (p & w1 & Hshow & Hlog & Hinv1).
    { destruct (decide (size (shown_indices (self w)) = length imgs)) as [Heq|Hneq].
      - destruct (tick_restart dir imgs w) as (p & w1 & ? & ? & ? & _); try done.
        by exists p, w1.
      - destruct (tick_continue true dir imgs w) as (p & w1 & ? & ? & ? & _); try done.
        by exists p, w1. }
    destruct (IH w1 Hinv1) as (lg & w' & Hloop & Hlog' & Hd & Ht & Hp).
    exists (tick_effects p ++ lg), w'. simpl mainloop.
    unfold mbind, M_bind at 1. rewrite Hshow. fold (@mbind (M G) _).
    split_and!.
    + exact Hloop.
    + rewrite Hlog', Hlog. by rewrite <- !app_assoc.
    + rewrite drawn_app, length_app, Hd. done.
    + rewrite timers_app, Ht. done.
    + rewrite printed_app, Hp. done.
Qed.

End Session.

Section Startup.
Context {G : Type} {RS : RandomSource G} {FS : FileSystem} {IM : Imaging}.

Lemma construct_ret loop dir screen g (w0 : world G) :
  construct loop dir screen g = Ret () w0 →
  ∃ imgs,
    get_images dir = Ok imgs ∧
    w0 = World (initial_self loop dir imgs) g
           [WindowGeometry width height (screen.1 - width) (screen.2 - height); CanvasPack].
Proof.
  destruct screen as [sw sh]. unfold construct.
  destruct (get_images dir) as [imgs|e]; [|done].
  intros [= <-]. by exists imgs.
Qed.

Lemma session_inv_initial loop dir imgs (g : G) lg :
  session_inv loop dir imgs (World (initial_self loop dir imgs) g lg).
Proof.
  by split_and!.
Qed.

Lemma run_mainloop loop dir screen g ticks (w0 : world G) :
  construct loop dir screen g = Ret () w0 →
  run loop dir screen g ticks = mainloop (S ticks) w0.
Proof. intros Hc. unfold run. by rewrite Hc. Qed.

End Startup.

(** X1: a tick that returns leaves exactly one image on the canvas, the one
    just loaded: whatever was drawn before is deleted first, the canvas is
    configured to the image's size, the image is drawn at (0, 0), kept in
    [current_image], and one more timer of [PAUSE] ms is armed. *)
Theorem tick_shows_current_image {G : Type} {RS : RandomSource G} {IM : Imaging}
    (w w' : world G) :
  show_next_image w = Ret () w' →
  ∃ p,
    current_image (self w') = Some p ∧
    canvas_items (log w') = [(0, 0, p)] ∧
    canvas_size (log w') = Some (photo_width p, photo_height p) ∧
    drawn (log w') = drawn (log w) ++ [p] ∧
    timers (log w') = timers (log w) ++ [PAUSE] ∧
    printed (log w') = printed (log w).
Proof.
  intros Hret.
  destruct (show_next_image_ret_log w w' Hret) as (name & w1 & p & _ & _ & ->).
  exists p. simpl. split_and!.
  - done.
  - apply canvas_items_tick.
  - apply canvas_size_tick.
  - by rewrite drawn_app.
  - by rewrite timers_app.
  - rewrite printed_app. by rewrite app_nil_r.
Qed.


Lemma tick_shows_current_image_witness :
  ∃ w',
    show_next_image (IM := sample_imaging) sample_busy_world = Ret () w' ∧
    canvas_items (log w') = [(0, 0, Photo 500 375)].
Proof.
  destruct (tick_shows_current_image (IM := sample_imaging) sample_busy_world
              (World (with_current_image (Some (Photo 500 375))
                        (record_shown 2 (initial_self false "pics" sample_images)))
                 [1; 0]
                 (log sample_busy_world ++ tick_effects (Photo 500 375))))
    as (p & Hcur & Hitems & _).
  - vm_compute. reflexivity.
  - eexists. split; [vm_compute; reflexivity|].
    simpl in Hcur. inversion Hcur; subst. exact Hitems.
Defined.

(** X2: a session with looping disabled over N images that all load: the
    window shows N images, one per tick, and the tick after the last one
    prints [DONE!] and leaves the process with status 0; nothing else is
    printed, and no timer is left armed beyond the N that fired. *)
Theorem session_without_loop {G : Type} {RS : RandomSource G} {FS : FileSystem}
    {IM : Imaging} (dir : string) (screen : Z * Z) (g : G) (ticks : nat) (w0 : world G) :
  construct false dir screen g = Ret () w0 →
  loadable dir (images (self w0)) →
  (length (images (self w0)) ≤ ticks)%nat →
  ∃ w,
    run false dir screen g ticks = SysExit 0 w ∧
    length (drawn (log w)) = length (images (self w0)) ∧
    timers (log w) = replicate (length (images (self w0))) PAUSE ∧
    printed (log w) = ["DONE!"] ∧
    last (log w) = Some (Print "DONE!").
Proof.
  intros Hc Hload Hticks.
  rewrite (run_mainloop false dir screen g ticks w0 Hc).
  destruct (construct_ret false dir screen g w0 Hc) as (imgs & _ & ->).
  cbn [self images initial_self] in Hload, Hticks |- *.
  set (w0 := World (initial_self false dir imgs) g _).
  replace (S ticks) with (length imgs + S (ticks - length imgs))%nat by lia.
  destruct (mainloop_pass dir imgs (length imgs) (ticks - length imgs) w0)
    as (lg & w & Hrun & Hlog & Hd & Ht & Hp).
  { apply session_inv_initial. }
  { done. }
  { change (size (∅ : gset Z) + length imgs = length imgs)%nat. by rewrite size_empty. }
  exists w. split; [exact Hrun|]. rewrite Hlog.
  split_and!.
  - rewrite !drawn_app, !length_app, Hd. simpl. lia.
  - rewrite !timers_app, Ht. simpl. by rewrite app_nil_r.
  - by rewrite !printed_app, Hp.
  - rewrite app_assoc. apply last_snoc.
Qed.

Lemma sample_loadable : loadable (IM := sample_imaging) "pics" ["a.png"; "b.jpg"].
Proof.
  intros name Hin. exists (Photo 500 375).
  apply elem_of_cons in Hin as [->|Hin]; [vm_compute; reflexivity|].
  apply elem_of_cons in Hin as [->|Hin]; [vm_compute; reflexivity|].
  by apply not_elem_of_nil in Hin.
Defined.

Lemma session_without_loop_witness :
  ∃ w,
    run (FS := sample_fs) (IM := sample_imaging) false "pics" (1920, 1080)
      ([3; 1] : list Z) 5 = SysExit 0 w ∧
    length (drawn (log w)) = 2%nat ∧
    printed (log w) = ["DONE!"].
Proof.
  destruct (session_without_loop (FS := sample_fs) (IM := sample_imaging)
              "pics" (1920, 1080) ([3; 1] : list Z) 5
              (World (initial_self false "pics" ["a.png"; "b.jpg"]) [3; 1]
                 [WindowGeometry 500 500 1420 580; CanvasPack]))
    as (w & Hrun & Hd & _ & Hp & _).
  - vm_compute. reflexivity.
  - exact sample_loadable.
  - simpl. lia.
  - exists w. split; [exact Hrun|]. split; [exact Hd|exact Hp].
Defined.

(** X3: a session with looping enabled over a non-empty image set whose
    images all load never ends by itself: for every number of timer firings
    the run is still going, has shown one image per tick, has armed one
    timer per tick, and has printed nothing. *)
Theorem session_with_loop_goes_on {G : Type} {RS : RandomSource G} {FS : FileSystem}
    {IM : Imaging} (dir : string) (screen : Z * Z) (g : G) (w0 : world G) :
  construct true dir screen g = Ret () w0 →
  images (self w0) ≠ [] →
  loadable dir (images (self w0)) →
  ∀ ticks, ∃ w,
    run true dir screen g ticks = Ret () w ∧
    length (drawn (log w)) = S ticks ∧
    timers (log w) = replicate (S ticks) PAUSE ∧
    printed (log w) = [].
Proof.
  intros Hc Hne Hload ticks.
  rewrite (run_mainloop true dir screen g ticks w0 Hc).
  destruct (construct_ret true dir screen g w0 Hc) as (imgs & _ & ->).
  cbn [self images initial_self] in Hload, Hne |- *.
  set (w0 := World (initial_self true dir imgs) g _).
  destruct (mainloop_loop dir imgs (S ticks) w0) as (lg & w & Hrun & Hlog & Hd & Ht & Hp).
  { apply session_inv_initial. }
  { done. }
  { done. }
  exists w. split; [exact Hrun|]. rewrite Hlog.
  split_and!.
  - by rewrite drawn_app, length_app, Hd.
  - by rewrite timers_app, Ht.
  - by rewrite printed_app, Hp.
Qed.

Lemma session_with_loop_goes_on_witness :
  ∃ w,
    run (FS := sample_fs) (IM := sample_imaging) true "pics" (1920, 1080)
      ([3; 1] : list Z) 7 = Ret () w ∧
    length (drawn (log w)) = 8%nat.
Proof.
  destruct (session_with_loop_goes_on (FS := sample_fs) (IM := sample_imaging)
              "pics" (1920, 1080) ([3; 1] : list Z)
              (World (initial_self true "pics" ["a.png"; "b.jpg"]) [3; 1]
                 [WindowGeometry 500 500 1420 580; CanvasPack]) ltac:(vm_compute; reflexivity)
              ltac:(discriminate) sample_loadable 7%nat)
    as (w & Hrun & Hd & _).
  exists w. split; [exact Hrun|exact Hd].
Defined.


(** ** Several passes *)

Section Passes.
Context {G : Type} {RS : RandomSource G}.
Implicit Types (w : world G) (s : slideshow).

Lemma selections_app a b w :
  selections (a + b) w =
  match selections a w with
  | (l1, Ret _ w1) => let '(l2, r2) := selections b w1 in (l1 ++ l2, r2)
  | (l1, r) => (l1, r)
  end.
Proof.
  revert w. induction a as [|a IH]; intros w; simpl.
  - by destruct (selections b w).
  - destruct (get_next_image w) as [name w'|e w'|c w']; [|done|done].
    rewrite IH. destruct (selections a w') as [l1 [[] w1|e w1|c w1]]; [|done|done].
    by destruct (selections b w1).
Qed.

Lemma selections_keep n w sel w' :
  selections n w = (sel, Ret () w') →
  images (self w') = images (self w) ∧
  bLoop (self w') = bLoop (self w) ∧
  (valid_shown (self w) → valid_shown (self w')).
Proof.
  revert w sel. induction n as [|n IH]; intros w sel Hsel; simpl in Hsel.
  - by inversion Hsel; subst.
  - destruct (get_next_image w) as [name w1|e w1|c w1] eqn:Hget; [|done|done].
    destruct (selections n w1) as [l r] eqn:Hrest. inversion Hsel; subst.
    destruct (get_next_image_preserves w name w1 Hget) as (Hi & Hl & Hv).
    destruct (IH w1 l Hrest) as (Hi' & Hl' & Hv').
    split_and!; [congruence|congruence|auto].
Qed.

(** Indices that are distinct, in range and as many as the images are the
    whole range in some order. *)
Lemma indices_all (N : nat) (l : list Z) :
  NoDup l → (∀ i, i ∈ l → 0 ≤ i < Z.of_nat N) → length l = N →
  l ≡ₚ range (Z.of_nat N).
Proof.
  intros Hnd Hin Hlen. apply submseteq_length_Permutation.
  - apply NoDup_submseteq; [done|]. intros i Hi.
    unfold range. apply elem_of_seqZ. specialize (Hin i Hi). lia.
  - unfold range. rewrite length_seqZ. lia.
Qed.

(** A pass that starts from an empty shown-set. *)
Lemma pass_from_empty w :
  shown_indices (self w) = ∅ →
  ∃ sel w',
    selections (length (images (self w))) w = (sel, Ret () w') ∧
    sel.*1 ≡ₚ range (Z.of_nat (length (images (self w)))) ∧
    sel.*2 ≡ₚ images (self w) ∧
    log w' = log w ∧
    size (shown_indices (self w')) = length (images (self w)).
Proof.
  intros He.
  destruct (selections_pass (length (images (self w))) w)
    as (sel & w' & Hsel & Hlen & Hnd & Hin & Hnames & Himg & _ & Hlog & Hfull).
  { intros i Hi. rewrite He in Hi. by apply not_elem_of_empty in Hi. }
  { rewrite He. change (size (∅ : gset Z) + length (images (self w)) =
                          length (images (self w)))%nat.
    by rewrite size_empty. }
  assert (sel.*1 ≡ₚ range (Z.of_nat (length (images (self w))))) as Hperm.
  { apply indices_all; [done| |by rewrite length_fmap].
    intros i Hi. by apply Hin in Hi as [? _]. }
  exists sel, w'. split_and!; try done.
  - by apply names_of_range.
  - by rewrite Hfull, Himg.
Qed.

(** A pass that starts from a full shown-set, looping enabled. *)
Lemma pass_from_full w :
  bLoop (self w) = true → images (self w) ≠ [] →
  size (shown_indices (self w)) = length (images (self w)) →
  ∃ sel w',
    selections (length (images (self w))) w = (sel, Ret () w') ∧
    sel.*1 ≡ₚ range (Z.of_nat (length (images (self w)))) ∧
    sel.*2 ≡ₚ images (self w) ∧
    log w' = log w ∧
    size (shown_indices (self w')) = length (images (self w)).
Proof.
  intros Hl Hne Hsz.
  destruct (get_next_image_after_reset w Hl Hne Hsz) as (name & _ & Hi & Hname & Hget).
  set (i := (randbelow (gen w) (Z.of_nat (length (images (self w))))).1) in *.
  set (w1 := World (record_shown i (clear_shown (self w))) _ (log w)) in Hget.
  destruct (length (images (self w))) as [|n] eqn:HN.
  { by destruct (images (self w)). }
  destruct (selections_pass n w1)
    as (sel & w' & Hsel & Hlen & Hnd & Hin & Hnames & Himg & _ & Hlog & Hfull).
  { apply record_shown_valid; [|simpl; lia].
    intros j Hj. simpl in Hj. by apply not_elem_of_empty in Hj. }
  { change (self w1) with (record_shown i (clear_shown (self w))).
    rewrite record_shown_size by (simpl; apply not_elem_of_empty).
    cbn [record_shown clear_shown images shown_indices].
    rewrite HN, size_empty. lia. }
  simpl in Hin, Hnames, Himg, Hlog.
  exists ((i, name) :: sel), w'. simpl selections. rewrite Hget, Hsel.
  change (current_image_index (self w1)) with i.
  assert (((i, name) :: sel).*1 ≡ₚ range (Z.of_nat (S n))) as Hperm.
  { apply indices_all.
    - simpl. apply NoDup_cons. split; [|done]. intros Hi'.
      apply Hin in Hi' as [_ Hi']. apply Hi'.
      by apply elem_of_union_l, elem_of_singleton.
    - intros j Hj. simpl in Hj. apply elem_of_cons in Hj as [->|Hj]; [lia|].
      apply Hin in Hj as [Hj _]. lia.
    - simpl. by rewrite length_fmap, Hlen. }
  split_and!; try done.
  - rewrite <- HN in Hperm. apply names_of_range; [done|].
    intros j nm Hj. apply elem_of_cons in Hj as [[= -> ->]|Hj]; [done|].
    by apply Hnames.
  - by rewrite Hfull, Himg.
Qed.

End Passes.

(** X4: with looping enabled every pass shows every image once: the first
    k * N selections over a non-empty image set of size N all return and
    split into k consecutive passes, each of which selects the indices
    0 .. N-1 in some order and returns the N file names. *)
Theorem loop_passes {G : Type} {RS : RandomSource G}
    (dir : string) (imgs : list string) (g : G) (lg : list effect) (k : nat) :
  imgs ≠ [] →
  ∃ passes w,
    selections (k * length imgs) (World (initial_self true dir imgs) g lg)
      = (concat passes, Ret () w) ∧
    length passes = k ∧
    Forall (λ pass : list (Z * string),
              pass.*1 ≡ₚ range (Z.of_nat (length imgs)) ∧ pass.*2 ≡ₚ imgs) passes.
Proof.
  intros Hne.
  set (w0 := World (initial_self true dir imgs) g lg).
  assert (∀ k w, bLoop (self w) = true → images (self w) = imgs →
            (shown_indices (self w) = ∅ ∨
             size (shown_indices (self w)) = length imgs) →
            ∃ passes w',
              selections (k * length imgs) w = (concat passes, Ret () w') ∧
              length passes = k ∧
              Forall (λ pass : list (Z * string),
                        pass.*1 ≡ₚ range (Z.of_nat (length imgs)) ∧ pass.*2 ≡ₚ imgs)
                passes) as Hgen.
  { clear k. induction k as [|k IH]; intros w Hl Himg Hstart.
    - exists [], w. by split_and!.
    - assert (∃ sel w1,
                selections (length imgs) w = (sel, Ret () w1) ∧
                sel.*1 ≡ₚ range (Z.of_nat (length imgs)) ∧ sel.*2 ≡ₚ imgs ∧
                size (shown_indices (self w1)) = length imgs)
        as (sel & w1 & Hsel & Hp1 & Hp2 & Hfull).
      { destruct Hstart as [He|Hsz].
        - destruct (pass_from_empty w He) as (sel & w1 & ? & ? & ? & _ & ?).
          rewrite Himg in *. by exists sel, w1.
        - destruct (pass_from_full w) as (sel & w1 & ? & ? & ? & _ & ?);
            [done|by rewrite Himg|by rewrite Himg|].
          rewrite Himg in *. by exists sel, w1. }
      destruct (selections_keep _ _ _ _ Hsel) as (Himg1 & Hl1 & _).
      destruct (IH w1) as (passes & w' & Hrest & Hlen & Hall);
        [congruence|congruence|by right|].
      exists (sel :: passes), w'. split_and!.
      + change (S k * length imgs)%nat with (length imgs + k * length imgs)%nat.
        rewrite selections_app, Hsel, Hrest. done.
      + simpl. by rewrite Hlen.
      + by constructor. }
  apply (Hgen k w0); [done|done|by left].
Qed.

Lemma loop_passes_witness :
  ∃ passes w,
    selections 6 (World (initial_self true "pics" sample_images) ([5; 1; 0; 4] : list Z) [])
      = (concat passes, Ret () w) ∧
    length passes = 2%nat.
Proof.
  destruct (loop_passes "pics" sample_images ([5; 1; 0; 4] : list Z) [] 2)
    as (passes & w & Hsel & Hlen & _).
  - discriminate.
  - exists passes, w. split; [exact Hsel|exact Hlen].
Defined.

(** X5: file names are not repeated within a pass: when the folder can be
    listed, each of its regular files can be opened for inspection and the
    listing has no duplicates, [get_images] returns an image set without
    duplicates, and the names that the N selections of a pass return are
    pairwise distinct, with or without looping. *)
Theorem pass_names_distinct {G : Type} {RS : RandomSource G} {FS : FileSystem}
    (loop : bool) (dir : string) (entries : list string) (g : G) (lg : list effect) :
  os_listdir dir = Ok entries →
  readable_entries dir entries →
  NoDup entries →
  ∃ imgs sel w,
    get_images dir = Ok imgs ∧
    NoDup imgs ∧
    selections (length imgs) (World (initial_self loop dir imgs) g lg) = (sel, Ret () w) ∧
    NoDup sel.*2.
Proof.
  intros Hls Hread Hnd.
  destruct (get_images_spec dir entries Hls Hread) as (imgs & Hget & Hsub & _).
  assert (NoDup imgs) as Hnd' by by eapply sublist_NoDup.
  destruct (pass_from_empty (World (initial_self loop dir imgs) g lg))
    as (sel & w & Hsel & _ & Hnames & _); [done|].
  exists imgs, sel, w. split_and!; try done.
  simpl in Hnames. by rewrite Hnames.
Qed.

Lemma pass_names_distinct_witness :
  ∃ sel w,
    selections 2 (World (initial_self false "pics" ["a.png"; "b.jpg"]) ([3; 1] : list Z) [])
      = (sel, Ret () w) ∧
    NoDup sel.*2.
Proof.
  destruct (pass_names_distinct (FS := sample_fs) false "pics"
              ["a.png"; "notes.txt"; "nested"; "b.jpg"] ([3; 1] : list Z) [])
    as (imgs & sel & w & Hget & _ & Hsel & Hnd).
  - reflexivity.
  - repeat constructor; intros _; eexists; reflexivity.
  - refine (bool_decide_unpack _ _). vm_compute. exact I.
  - vm_compute in Hget. inversion Hget; subst.
    exists sel, w. split; [exact Hsel|exact Hnd].
Defined.

(** X6: an unreadable folder stops the program at start-up: when
    [os.listdir] raises, [__init__] lets the exception through after the
    window was placed (its bottom-right corner on the screen's) and the
    canvas packed; no image is requested, nothing is printed or drawn and
    no timer is armed. *)
Theorem unreadable_folder_raises {G : Type} {RS : RandomSource G} {FS : FileSystem}
    {IM : Imaging} (loop : bool) (dir : string) (sw sh : Z) (g : G) (ticks : nat) (e : exn) :
  os_listdir dir = Exc e →
  ∃ w x y,
    run loop dir (sw, sh) g ticks = Raise e w ∧
    log w = [WindowGeometry SIZE SIZE x y; CanvasPack] ∧
    x + SIZE = sw ∧ y + SIZE = sh ∧
    shown_indices (self w) = ∅ ∧ gen w = g.
Proof.
  intros Hls. unfold run, construct, get_images. rewrite Hls. simpl.
  eexists _, (sw - SIZE), (sh - SIZE). split; [reflexivity|].
  split; [reflexivity|]. split; [lia|]. split; [lia|]. split; reflexivity.
Qed.

Lemma unreadable_folder_raises_witness :
  ∃ w,
    run (FS := sample_fs) (IM := sample_imaging) false "nowhere" (1920, 1080)
      ([3; 1] : list Z) 4 = Raise (Exn OtherException "No such file or directory") w ∧
    log w = [WindowGeometry 500 500 1420 580; CanvasPack].
Proof.
  destruct (unreadable_folder_raises (FS := sample_fs) (IM := sample_imaging)
              false "nowhere" 1920 1080 ([3; 1] : list Z) 4
              (Exn OtherException "No such file or directory"))
    as (w & x & y & Hrun & Hlog & Hx & Hy & _).
  - reflexivity.
  - exists w. split; [exact Hrun|].
    assert (x = 1420) as -> by (unfold SIZE in Hx; lia).
    assert (y = 580) as -> by (unfold SIZE in Hy; lia).
    exact Hlog.
Defined.

(** X11: a file that cannot be opened stops the program at start-up: when
    the listing succeeds but [imghdr.what] raises on a regular file, the
    files before it being readable, [__init__] lets that exception through
    after the window was placed and the canvas packed, whatever follows in
    the listing; no image is requested, nothing is printed or drawn and no
    timer is armed. *)
Theorem unreadable_file_raises {G : Type} {RS : RandomSource G} {FS : FileSystem}
    {IM : Imaging} (loop : bool) (dir : string) (sw sh : Z) (g : G) (ticks : nat)
    (pre post : list string) (name : string) (e : exn) :
  os_listdir dir = Ok (pre ++ name :: post) →
  readable_entries dir pre →
  os_path_isfile (path_join dir name) = true →
  imghdr_what (path_join dir name) = Exc e →
  ∃ w x y,
    run loop dir (sw, sh) g ticks = Raise e w ∧
    log w = [WindowGeometry SIZE SIZE x y; CanvasPack] ∧
    x + SIZE = sw ∧ y + SIZE = sh ∧
    shown_indices (self w) = ∅ ∧ gen w = g.
Proof.
  intros Hls Hr Hf He. unfold run, construct, get_images. rewrite Hls.
  cbn [pyres_bind]. rewrite (get_images_loop_raises dir pre name post [] e Hr Hf He).
  eexists _, (sw - SIZE), (sh - SIZE). split; [reflexivity|].
  split; [reflexivity|]. split; [lia|]. split; [lia|]. split; reflexivity.
Qed.

Lemma unreadable_file_raises_witness :
  ∃ w,
    run (FS := sample_locked_fs) (IM := sample_imaging) false "pics" (1920, 1080)
      ([3; 1] : list Z) 4 =
      Raise (Exn OtherException "[Errno 13] Permission denied: 'pics/locked.png'") w ∧
    log w = [WindowGeometry 500 500 1420 580; CanvasPack].
Proof.
  destruct (unreadable_file_raises (FS := sample_locked_fs) (IM := sample_imaging)
              false "pics" 1920 1080 ([3; 1] : list Z) 4 ["a.png"] ["b.jpg"] "locked.png"
              (Exn OtherException "[Errno 13] Permission denied: 'pics/locked.png'"))
    as (w & x & y & Hrun & Hlog & Hx & Hy & _).
  - reflexivity.
  - repeat constructor; intros _; eexists; reflexivity.
  - reflexivity.
  - reflexivity.
  - exists w. split; [exact Hrun|].
    assert (x = 1420) as -> by (unfold SIZE in Hx; lia).
    assert (y = 580) as -> by (unfold SIZE in Hy; lia).
    exact Hlog.
Defined.

(** X7: with looping enabled a folder without images crashes the first
    selection: the shown-set is cleared, [random.choice] raises
    [IndexError] on the empty availability list, and since the selection is
    made outside the [try] of [show_next_image] the exception leaves the
    run; nothing is printed and the random source is not consumed. *)
Theorem empty_folder_with_loop_raises {G : Type} {RS : RandomSource G} {FS : FileSystem}
    {IM : Imaging} (dir : string) (screen : Z * Z) (g : G) (ticks : nat) (w0 : world G) :
  construct true dir screen g = Ret () w0 →
  images (self w0) = [] →
  run true dir screen g ticks =
    Raise (Exn IndexError "Cannot choose from an empty sequence") w0.
Proof.
  intros Hc Himg.
  rewrite (run_mainloop true dir screen g ticks w0 Hc).
  destruct (construct_ret true dir screen g w0 Hc) as (imgs & _ & ->).
  simpl in Himg. subst imgs. simpl mainloop.
  unfold mbind at 1, M_bind at 1, show_next_image, mbind at 1, M_bind at 1.
  rewrite get_next_image_reset by done.
  rewrite select_unshown_empty by done. done.
Qed.


Lemma empty_folder_with_loop_raises_witness :
  run (FS := sample_empty_fs) (IM := sample_imaging) true "docs" (1920, 1080)
    ([3; 1] : list Z) 4 =
  Raise (Exn IndexError "Cannot choose from an empty sequence")
    (World (initial_self true "docs" []) [3; 1]
       [WindowGeometry 500 500 1420 580; CanvasPack]).
Proof.
  apply (empty_folder_with_loop_raises (FS := sample_empty_fs) (IM := sample_imaging)).
  - vm_compute. reflexivity.
  - reflexivity.
Defined.

(** ** Binary64 arithmetic: what rounding can do *)

(** ** Binary64 rounding, on integers *)

Section Rounding.

Lemma digits2_pos_bounds p :
  2 ^ (Zpos (digits2_pos p) - 1) ≤ Zpos p < 2 ^ Zpos (digits2_pos p).
Proof.
  induction p as [p IH|p IH|]; simpl digits2_pos.
  - rewrite Pos2Z.inj_succ, Z.pow_succ_r by lia.
    replace (Z.succ (Zpos (digits2_pos p)) - 1) with (Z.succ (Zpos (digits2_pos p) - 1)) by lia.
    rewrite Z.pow_succ_r by lia. lia.
  - rewrite Pos2Z.inj_succ, Z.pow_succ_r by lia.
    replace (Z.succ (Zpos (digits2_pos p)) - 1) with (Z.succ (Zpos (digits2_pos p) - 1)) by lia.
    rewrite Z.pow_succ_r by lia. lia.
  - simpl. lia.
Qed.

Lemma Zdigits2_bounds m :
  0 < m → 2 ^ (Zdigits2 m - 1) ≤ m < 2 ^ Zdigits2 m.
Proof. destruct m as [|p|p]; [lia| |lia]. intros _. apply digits2_pos_bounds. Qed.

Lemma Zdigits2_unique m k :
  2 ^ (k - 1) ≤ m < 2 ^ k → 0 < m → Zdigits2 m = k.
Proof.
  intros [Hlo Hhi] Hm. pose proof (Zdigits2_bounds m Hm) as [Hlo' Hhi'].
  assert (0 < Zdigits2 m) by (destruct m; simpl; lia).
  assert (0 < k).
  { destruct (Z.lt_trichotomy k 0) as [Hk|[->|Hk]]; [|simpl in Hhi; lia|done].
    rewrite Z.pow_neg_r in Hhi by lia. lia. }
  destruct (Z.lt_trichotomy (Zdigits2 m) k) as [Hlt|[Heq|Hgt]]; [|done|].
  - assert (2 ^ Zdigits2 m ≤ 2 ^ (k - 1)) by (apply Z.pow_le_mono_r; lia). lia.
  - assert (2 ^ k ≤ 2 ^ (Zdigits2 m - 1)) by (apply Z.pow_le_mono_r; lia). lia.
Qed.

Lemma shr_m_shr_1 mrs :
  0 ≤ shr_m mrs → shr_m (shr_1 mrs) = shr_m mrs / 2.
Proof.
  destruct mrs as [m r s]. cbn [shr_m]. intros Hm.
  destruct m as [|[p|p|]|p]; cbn [shr_1 shr_m]; try lia; try reflexivity.
  - apply Z.div_unique with 1; lia.
  - apply Z.div_unique with 0; lia.
Qed.

Lemma shr_m_iter_pos p : ∀ mrs,
  0 ≤ shr_m mrs → shr_m (SpecFloat.iter_pos shr_1 p mrs) = shr_m mrs / 2 ^ Zpos p.
Proof.
  induction p as [p IH|p IH|]; intros mrs Hm; simpl SpecFloat.iter_pos.
  - assert (0 ≤ shr_m (shr_1 mrs)) as H1.
    { rewrite shr_m_shr_1 by done. apply Z.div_pos; lia. }
    assert (0 ≤ shr_m (SpecFloat.iter_pos shr_1 p (shr_1 mrs))) as H2.
    { rewrite IH by done. apply Z.div_pos; [done|]. apply Z.pow_pos_nonneg; lia. }
    rewrite IH, IH, shr_m_shr_1 by done.
    rewrite !Z.div_div by (try apply Z.pow_pos_nonneg; lia).
    f_equal. replace (Z.pos p~1) with (1 + Zpos p + Zpos p) by lia.
    rewrite !Z.pow_add_r by lia. lia.
  - assert (0 ≤ shr_m (SpecFloat.iter_pos shr_1 p mrs)) as H2.
    { rewrite IH by done. apply Z.div_pos; [done|]. apply Z.pow_pos_nonneg; lia. }
    rewrite IH, IH by done.
    rewrite Z.div_div by (try apply Z.pow_pos_nonneg; lia).
    f_equal. replace (Z.pos p~0) with (Zpos p + Zpos p) by lia.
    rewrite Z.pow_add_r by lia. lia.
  - by apply shr_m_shr_1.
Qed.

Lemma shr_m_of_loc m l : shr_m (shr_record_of_loc m l) = m.
Proof. by destruct l as [|[]]. Qed.

(** Shifting right by [n] places. *)
Lemma shr_spec mrs e n :
  0 ≤ shr_m mrs → 0 ≤ n →
  shr_m (shr mrs e n).1 = shr_m mrs / 2 ^ n ∧ (shr mrs e n).2 = e + n.
Proof.
  intros Hm Hn. destruct n as [|p|p]; [| |lia]; simpl.
  - rewrite Z.div_1_r. split; [done|lia].
  - by rewrite shr_m_iter_pos.
Qed.

Lemma round_nearest_even_choice m l :
  round_nearest_even m l = m ∨ round_nearest_even m l = m + 1.
Proof. destruct l as [|[]]; simpl; auto. destruct (Z.even m); auto. Qed.

End Rounding.

Section RoundAux.

Lemma fexp_normal e : -1074 ≤ e - 53 → fexp PyFloat.prec PyFloat.emax e = e - 53.
Proof. unfold fexp, emin, PyFloat.prec, PyFloat.emax. lia. Qed.

(** The shape of the result of rounding a positive mantissa of at least
    53 bits in the normal range: the mantissa is cut to 53 bits, kept or
    incremented, and renormalised when the increment carries. *)
Lemma binary_round_aux_shape s mx ex lx :
  0 < mx →
  53 ≤ Zdigits2 mx →
  -1074 ≤ ex + Zdigits2 mx - 53 →
  ex + Zdigits2 mx - 53 < 971 →
  let n := Zdigits2 mx - 53 in
  let U := mx / 2 ^ n in
  ∃ m2,
    (m2 = U ∨ m2 = U + 1) ∧
    binary_round_aux PyFloat.prec PyFloat.emax s mx ex lx =
      if Z.eq_dec m2 (2 ^ 53)
      then S754_finite s 4503599627370496 (ex + n + 1)
      else S754_finite s (Z.to_pos m2) (ex + n).
Proof.
  intros Hmx Hd Hlo Hhi n U.
  set (d := Zdigits2 mx) in *.
  pose proof (Zdigits2_bounds mx Hmx) as [Hb1 Hb2]. fold d in Hb1, Hb2.
  assert (0 < 2 ^ n) as HT by (apply Z.pow_pos_nonneg; lia).
  assert (2 ^ (d - 1) = 2 ^ n * 2 ^ 52) as Hp1.
  { rewrite <- Z.pow_add_r by lia. f_equal. lia. }
  assert (2 ^ d = 2 ^ n * 2 ^ 53) as Hp2.
  { rewrite <- Z.pow_add_r by lia. f_equal. lia. }
  assert (2 ^ 52 ≤ U) as HU1 by (apply Z.div_le_lower_bound; lia).
  assert (U < 2 ^ 53) as HU2 by (apply Z.div_lt_upper_bound; lia).
  unfold binary_round_aux.
  unfold shr_fexp at 1. fold d.
  rewrite fexp_normal by lia.
  replace (d + ex - 53 - ex) with n by lia.
  destruct (shr_spec (shr_record_of_loc mx lx) ex n) as [Hm1 He1];
    [rewrite shr_m_of_loc; lia|lia|].
  destruct (shr (shr_record_of_loc mx lx) ex n) as [mrs1 e1].
  simpl in Hm1, He1. rewrite shr_m_of_loc in Hm1. fold U in Hm1. subst e1.
  set (m2 := round_nearest_even (shr_m mrs1) (loc_of_shr_record mrs1)).
  assert (m2 = U ∨ m2 = U + 1) as Hm2.
  { unfold m2. rewrite <- Hm1. apply round_nearest_even_choice. }
  exists m2. split; [done|].
  unfold shr_fexp.
  destruct (Z.eq_dec m2 (2 ^ 53)) as [Heq|Hne].
  - assert (Zdigits2 m2 = 54) as Hd2.
    { apply Zdigits2_unique; rewrite Heq; simpl; lia. }
    rewrite Hd2, fexp_normal by lia.
    replace (54 + (ex + n) - 53 - (ex + n)) with 1 by lia.
    rewrite Heq. cbn [shr shr_record_of_loc SpecFloat.iter_pos].
    simpl shr_m.
    assert ((ex + n + 1 <=? PyFloat.emax - PyFloat.prec) = true) as ->; [|done].
    apply Z.leb_le. unfold PyFloat.emax, PyFloat.prec. lia.
  - assert (2 ^ 52 ≤ m2 < 2 ^ 53) as Hm2b by lia.
    assert (Zdigits2 m2 = 53) as Hd2.
    { apply Zdigits2_unique; simpl; lia. }
    rewrite Hd2, fexp_normal by lia.
    replace (53 + (ex + n) - 53 - (ex + n)) with 0 by lia.
    cbn [shr shr_record_of_loc shr_m].
    destruct m2 as [|p2|p2]; [lia| |lia].
    assert ((ex + n <=? PyFloat.emax - PyFloat.prec) = true) as ->; [|done].
    apply Z.leb_le. unfold PyFloat.emax, PyFloat.prec. lia.
Qed.

(** Rounding a positive mantissa of at least 53 bits, in the normal range:
    the result is a normal number that is one of the two binary64
    neighbours of the exact value. *)
Lemma binary_round_aux_faithful s mx ex lx :
  0 < mx →
  53 ≤ Zdigits2 mx →
  -1074 ≤ ex + Zdigits2 mx - 53 →
  ex + Zdigits2 mx - 53 < 971 →
  ∃ m e,
    binary_round_aux PyFloat.prec PyFloat.emax s mx ex lx = S754_finite s m e ∧
    2 ^ 52 ≤ Zpos m < 2 ^ 53 ∧
    ex + Zdigits2 mx - 53 ≤ e ≤ ex + Zdigits2 mx - 52 ∧
    2 ^ 52 * (Zpos m * 2 ^ (e - ex)) ≤ (2 ^ 52 + 1) * mx ∧
    2 ^ 52 * (mx + 1) ≤ (2 ^ 52 + 1) * (Zpos m * 2 ^ (e - ex)).
Proof.
  intros Hmx Hd Hlo Hhi.
  destruct (binary_round_aux_shape s mx ex lx Hmx Hd Hlo Hhi) as (m2 & Hm2 & ->).
  set (d := Zdigits2 mx) in *. set (n := d - 53) in *.
  pose proof (Zdigits2_bounds mx Hmx) as [Hb1 Hb2]. fold d in Hb1, Hb2.
  assert (0 < 2 ^ n) as HT by (apply Z.pow_pos_nonneg; lia).
  assert (2 ^ (d - 1) = 2 ^ n * 2 ^ 52) as Hp1.
  { rewrite <- Z.pow_add_r by lia. f_equal. lia. }
  assert (2 ^ d = 2 ^ n * 2 ^ 53) as Hp2.
  { rewrite <- Z.pow_add_r by lia. f_equal. lia. }
  set (U := mx / 2 ^ n) in *.
  assert (2 ^ 52 ≤ U) as HU1 by (apply Z.div_le_lower_bound; lia).
  assert (U < 2 ^ 53) as HU2 by (apply Z.div_lt_upper_bound; lia).
  assert (2 ^ n * U ≤ mx) as HP1 by (apply Z.mul_div_le; lia).
  assert (mx < 2 ^ n * Z.succ U) as HP2 by (apply Z.mul_succ_div_gt; lia).
  assert (2 ^ 52 * 2 ^ n ≤ 2 ^ n * U) as HP3 by nia.
  set (T := 2 ^ n) in *. set (P := T * U) in *.
  assert (T * Z.succ U = P + T) as HP4 by (unfold P; lia).
  rewrite HP4 in HP2.
  destruct (Z.eq_dec m2 (2 ^ 53)) as [Heq|Hne].
  - exists 4503599627370496%positive, (ex + n + 1).
    assert (Zpos 4503599627370496 * 2 ^ (ex + n + 1 - ex) = P + T) as ->.
    { replace (ex + n + 1 - ex) with (n + 1) by lia.
      rewrite Z.pow_add_r by lia. fold T. unfold P.
      assert (U = 2 ^ 53 - 1) as -> by lia. simpl. lia. }
    split; [done|]. split; [simpl; lia|]. split; [lia|]. lia.
  - exists (Z.to_pos m2), (ex + n).
    assert (0 < m2) by lia. rewrite Z2Pos.id by done.
    replace (ex + n - ex) with n by lia. fold T.
    assert (m2 * T = P ∨ m2 * T = P + T) as HV.
    { unfold P. destruct Hm2 as [->| ->]; [left|right]; lia. }
    split; [done|]. split; [lia|]. split; [lia|].
    destruct HV as [-> | ->]; lia.
Qed.

End RoundAux.

Section Operations.

Lemma binary_round_aux_exact s mx ex :
  0 < mx → Zdigits2 mx = 53 → -1074 ≤ ex ≤ 971 →
  binary_round_aux PyFloat.prec PyFloat.emax s mx ex loc_Exact =
    S754_finite s (Z.to_pos mx) ex.
Proof.
  intros Hmx Hd He.
  unfold binary_round_aux, shr_fexp.
  rewrite Hd, fexp_normal by lia.
  replace (53 + ex - 53 - ex) with 0 by lia.
  cbn [shr shr_record_of_loc shr_m loc_of_shr_record round_nearest_even].
  rewrite Hd, fexp_normal by lia.
  replace (53 + ex - 53 - ex) with 0 by lia.
  cbn [shr shr_record_of_loc shr_m].
  destruct mx as [|p|p]; [lia| |lia].
  assert ((ex <=? PyFloat.emax - PyFloat.prec) = true) as ->; [|done].
  apply Z.leb_le. unfold PyFloat.emax, PyFloat.prec. lia.
Qed.

Lemma Zpos_iter_xO p k : Zpos (Pos.iter xO p k) = Zpos p * 2 ^ Zpos k.
Proof.
  pose proof (shift_pos_correct k p) as H. unfold shift_pos in H.
  rewrite H, Z.pow_pos_fold. lia.
Qed.

(** [float(W)] is exact below 2^53. *)
Lemma of_int_exact W :
  0 < W < 2 ^ 53 →
  ∃ m e,
    PyFloat.of_int W = Ok (S754_finite false m e) ∧
    2 ^ 52 ≤ Zpos m < 2 ^ 53 ∧
    -52 ≤ e ≤ 0 ∧
    Zpos m = W * 2 ^ (- e).
Proof.
  intros [HW1 HW2]. destruct W as [|p|p]; [lia| |lia].
  pose proof (digits2_pos_bounds p) as [Hb1 Hb2].
  set (d := Zpos (digits2_pos p)) in *.
  assert (1 ≤ d ≤ 53) as Hd.
  { split; [unfold d; lia|].
    destruct (Z.le_gt_cases d 53) as [|Hgt]; [done|].
    assert (2 ^ 53 ≤ 2 ^ (d - 1)) by (apply Z.pow_le_mono_r; lia). lia. }
  unfold PyFloat.of_int, binary_normalize, binary_round. fold d.
  replace (d + 0) with d by lia. rewrite fexp_normal by lia.
  unfold shl_align. replace (d - 53 - 0) with (d - 53) by lia.
  destruct (d - 53) as [|k|k] eqn:Hk; [| lia |].
  - assert (d = 53) as Hd53 by lia.
    rewrite binary_round_aux_exact; [| lia | simpl; fold d; lia | lia].
    exists p, 0. rewrite Hd53 in Hb1. simpl in Hb1 |- *.
    split; [done|]. split; [lia|]. split; [lia|lia].
  - assert (Zpos (Pos.iter xO p k) = Zpos p * 2 ^ Zpos k) as Hm by apply Zpos_iter_xO.
    assert (0 < 2 ^ Zpos k) as HT by (apply Z.pow_pos_nonneg; lia).
    assert (2 ^ (d - 1) * 2 ^ Zpos k = 2 ^ 52) as H52.
    { rewrite <- Z.pow_add_r by lia. f_equal. lia. }
    assert (2 ^ d * 2 ^ Zpos k = 2 ^ 53) as H53.
    { rewrite <- Z.pow_add_r by lia. f_equal. lia. }
    assert (2 ^ 52 ≤ Zpos (Pos.iter xO p k) < 2 ^ 53) as Hrange.
    { rewrite Hm. nia. }
    rewrite binary_round_aux_exact; [| lia | | lia].
    + exists (Pos.iter xO p k), (Zneg k).
      split; [done|]. split; [done|]. split; [lia|].
      rewrite Hm. done.
    + apply Zdigits2_unique; [simpl; lia|lia].
Qed.

(** [a / b] on two positive ints below 2^53 is one of the two binary64
    neighbours of the quotient. *)
Lemma int_truediv_faithful a b :
  0 < a < 2 ^ 53 → 0 < b < 2 ^ 53 →
  ∃ m e s,
    PyFloat.int_truediv a b = Ok (S754_finite false m e) ∧
    2 ^ 52 ≤ Zpos m < 2 ^ 53 ∧
    0 ≤ s ∧ -107 ≤ e ∧ - s ≤ e ≤ 1 ∧
    2 ^ 52 * (Zpos m * 2 ^ (e + s) * b) ≤ (2 ^ 52 + 1) * (a * 2 ^ s) ∧
    2 ^ 52 * (a * 2 ^ s) ≤ (2 ^ 52 + 1) * (Zpos m * 2 ^ (e + s) * b).
Proof.
  intros [Ha1 Ha2] [Hb1 Hb2].
  pose proof (Zdigits2_bounds a Ha1) as [Hda1 Hda2].
  pose proof (Zdigits2_bounds b Hb1) as [Hdb1 Hdb2].
  set (d1 := Zdigits2 a) in *. set (d2 := Zdigits2 b) in *.
  assert (1 ≤ d1 ≤ 53) as Hd1.
  { split; [destruct a; simpl in *; lia|].
    destruct (Z.le_gt_cases d1 53) as [|Hgt]; [done|].
    assert (2 ^ 53 ≤ 2 ^ (d1 - 1)) by (apply Z.pow_le_mono_r; lia). lia. }
  assert (1 ≤ d2 ≤ 53) as Hd2.
  { split; [destruct b; simpl in *; lia|].
    destruct (Z.le_gt_cases d2 53) as [|Hgt]; [done|].
    assert (2 ^ 53 ≤ 2 ^ (d2 - 1)) by (apply Z.pow_le_mono_r; lia). lia. }
  remember (53 + d2 - d1) as s eqn:Hs.
  assert (0 < 2 ^ s) as HS by (apply Z.pow_pos_nonneg; lia).
  set (q := (a * 2 ^ s) / b).
  assert (2 ^ (d1 - 1) * 2 ^ s = 2 ^ 52 * 2 ^ d2) as Hp1.
  { rewrite <- !Z.pow_add_r by lia. f_equal. lia. }
  assert (2 ^ d1 * 2 ^ s = 2 ^ 54 * 2 ^ (d2 - 1)) as Hp2.
  { rewrite <- !Z.pow_add_r by lia. f_equal. lia. }
  assert (2 ^ 52 ≤ q) as Hq1 by (apply Z.div_le_lower_bound; nia).
  assert (q < 2 ^ 54) as Hq2 by (apply Z.div_lt_upper_bound; nia).
  assert (b * q ≤ a * 2 ^ s) as Hq3 by (apply Z.mul_div_le; lia).
  assert (a * 2 ^ s < b * Z.succ q) as Hq4 by (apply Z.mul_succ_div_gt; lia).
  assert (53 ≤ Zdigits2 q ≤ 54) as Hdq.
  { pose proof (Zdigits2_bounds q ltac:(lia)) as [Hl Hh]. split.
    - destruct (Z.le_gt_cases 53 (Zdigits2 q)) as [|Hlt]; [done|].
      assert (2 ^ Zdigits2 q ≤ 2 ^ 52) by (apply Z.pow_le_mono_r; lia). lia.
    - destruct (Z.le_gt_cases (Zdigits2 q) 54) as [|Hgt]; [done|].
      assert (2 ^ 54 ≤ 2 ^ (Zdigits2 q - 1)) by (apply Z.pow_le_mono_r; lia). lia. }
  assert (PyFloat.int_truediv a b =
          match binary_round_aux PyFloat.prec PyFloat.emax false q (- s)
                  (new_location b ((a * 2 ^ s) mod b)) with
          | S754_infinity _ =>
              Exc (Exn OverflowError "integer division result too large for a float")
          | f => Ok f
          end) as ->.
  { unfold PyFloat.int_truediv.
    rewrite (proj2 (Z.eqb_neq b 0)), (proj2 (Z.eqb_neq a 0)) by lia.
    rewrite (proj2 (Z.ltb_ge a 0)), (proj2 (Z.ltb_ge b 0)) by lia.
    rewrite !Z.abs_eq by lia.
    unfold SFdiv_core_binary. fold d1 d2.
    replace (d1 + 0 - (d2 + 0)) with (d1 - d2) by lia.
    rewrite fexp_normal by lia.
    replace (Z.min (d1 - d2 - 53) (0 - 0)) with (- s) by lia.
    replace (0 - 0 - - s) with s by lia.
    assert (match s with
            | 0 => a
            | Z.pos _ => Z.shiftl a s
            | Z.neg _ => 0
            end = a * 2 ^ s) as ->.
    { destruct s as [|ps|ps] eqn:Hps; [lia| |lia]. apply Z.shiftl_mul_pow2. lia. }
    unfold q. unfold Z.div, Z.modulo.
    destruct (Z.div_eucl (a * 2 ^ s) b) as [q' r']. done. }
  destruct (binary_round_aux_faithful false q (- s)
              (new_location b ((a * 2 ^ s) mod b))) as (m & e & -> & Hm & He & HA & HB);
    [lia|lia|lia|lia|].
  exists m, e, s. split; [done|]. split; [done|]. split; [lia|]. split; [lia|].
  split; [lia|].
  replace (e - - s) with (e + s) in HA, HB by lia.
  set (V := Zpos m * 2 ^ (e + s)) in *.
  assert (0 < V) by (apply Z.mul_pos_pos; [lia|apply Z.pow_pos_nonneg; lia]).
  split; nia.
Qed.

End Operations.

Section Values.

Lemma SFmul_faithful m1 e1 m2 e2 :
  2 ^ 52 ≤ Zpos m1 < 2 ^ 53 → 2 ^ 52 ≤ Zpos m2 < 2 ^ 53 →
  -1126 ≤ e1 + e2 → e1 + e2 < 917 →
  ∃ m e,
    SFmul PyFloat.prec PyFloat.emax (S754_finite false m1 e1) (S754_finite false m2 e2)
      = S754_finite false m e ∧
    2 ^ 52 ≤ Zpos m < 2 ^ 53 ∧
    e1 + e2 ≤ e ∧
    2 ^ 52 * (Zpos m * 2 ^ (e - (e1 + e2))) ≤ (2 ^ 52 + 1) * (Zpos m1 * Zpos m2) ∧
    2 ^ 52 * (Zpos m1 * Zpos m2) ≤ (2 ^ 52 + 1) * (Zpos m * 2 ^ (e - (e1 + e2))).
Proof.
  intros Hm1 Hm2 Hlo Hhi.
  unfold SFmul. cbn [xorb]. rewrite Pos2Z.inj_mul.
  set (P := Zpos m1 * Zpos m2).
  assert (2 ^ 104 ≤ P < 2 ^ 106) as HP.
  { unfold P. change (2 ^ 104) with (2 ^ 52 * 2 ^ 52).
    change (2 ^ 106) with (2 ^ 53 * 2 ^ 53). nia. }
  assert (105 ≤ Zdigits2 P ≤ 106) as HdP.
  { pose proof (Zdigits2_bounds P ltac:(lia)) as [Hl Hh]. split.
    - destruct (Z.le_gt_cases 105 (Zdigits2 P)) as [|Hlt]; [done|].
      assert (2 ^ Zdigits2 P ≤ 2 ^ 104) by (apply Z.pow_le_mono_r; lia). lia.
    - destruct (Z.le_gt_cases (Zdigits2 P) 106) as [|Hgt]; [done|].
      assert (2 ^ 106 ≤ 2 ^ (Zdigits2 P - 1)) by (apply Z.pow_le_mono_r; lia). lia. }
  destruct (binary_round_aux_faithful false P (e1 + e2) loc_Exact)
    as (m & e & -> & Hm & He & HA & HB); [lia|lia|lia|lia|].
  exists m, e. split; [done|]. split; [done|]. split; [lia|]. split; [done|lia].
Qed.


Lemma Qpow2_pos e : (0 < 2 ^ e)%Q.
Proof. by apply Qpower_0_lt. Qed.

Lemma inject_Z_pow2 k : 0 ≤ k → (inject_Z (2 ^ k) == 2 ^ k)%Q.
Proof. intros Hk. by rewrite Zpower_Qpower. Qed.

(** The value, counted in units of [2 ^ k] below the exponent. *)
Lemma B2Q_units m e k :
  k ≤ e →
  (B2Q (S754_finite false m e) == inject_Z (Zpos m * 2 ^ (e - k)) * 2 ^ k)%Q.
Proof.
  intros Hk. cbn [B2Q cond_Zopp].
  rewrite inject_Z_mult, inject_Z_pow2 by lia.
  rewrite <- Qmult_assoc, <- Qpower_plus by done.
  by replace (e - k + k) with e by lia.
Qed.

Lemma Qmult_le_cancel (p x y : Q) : (0 < p)%Q → (x * p <= y * p)%Q → (x <= y)%Q.
Proof. intros Hp H. by apply Qmult_le_r in H. Qed.

Lemma Qmult_lt_cancel (p x y : Q) : (0 < p)%Q → (x * p < y * p)%Q → (x < y)%Q.
Proof. intros Hp H. by apply Qmult_lt_r in H. Qed.

(** Comparing two positive numbers through their integer counts in a
    common unit. *)
Lemma B2Q_le_units m1 e1 m2 e2 k :
  k ≤ e1 → k ≤ e2 →
  Zpos m1 * 2 ^ (e1 - k) ≤ Zpos m2 * 2 ^ (e2 - k) →
  (B2Q (S754_finite false m1 e1) <= B2Q (S754_finite false m2 e2))%Q.
Proof.
  intros H1 H2 Hle. rewrite (B2Q_units m1 e1 k), (B2Q_units m2 e2 k) by done.
  apply Qmult_le_r; [apply Qpow2_pos|]. by rewrite <- Zle_Qle.
Qed.

Lemma B2Q_lt_units m1 e1 m2 e2 k :
  k ≤ e1 → k ≤ e2 →
  Zpos m1 * 2 ^ (e1 - k) < Zpos m2 * 2 ^ (e2 - k) →
  (B2Q (S754_finite false m1 e1) < B2Q (S754_finite false m2 e2))%Q.
Proof.
  intros H1 H2 Hlt. rewrite (B2Q_units m1 e1 k), (B2Q_units m2 e2 k) by done.
  apply Qmult_lt_r; [apply Qpow2_pos|]. by rewrite <- Zlt_Qlt.
Qed.

Lemma B2Q_pos m e : (0 < B2Q (S754_finite false m e))%Q.
Proof.
  cbn [B2Q cond_Zopp]. apply Qmult_lt_0_compat; [|apply Qpow2_pos].
  by rewrite <- (Zlt_Qlt 0).
Qed.

(** [<] on normal positive numbers is the order of their values. *)
Lemma SFltb_spec m1 e1 m2 e2 :
  2 ^ 52 ≤ Zpos m1 < 2 ^ 53 → 2 ^ 52 ≤ Zpos m2 < 2 ^ 53 →
  if SFltb (S754_finite false m1 e1) (S754_finite false m2 e2)
  then (B2Q (S754_finite false m1 e1) < B2Q (S754_finite false m2 e2))%Q
  else (B2Q (S754_finite false m2 e2) <= B2Q (S754_finite false m1 e1))%Q.
Proof.
  intros Hm1 Hm2. unfold SFltb, SFcompare.
  destruct (Z.compare_spec e1 e2) as [Heq|Hlt|Hgt].
  - subst e2. rewrite Pos.compare_cont_spec. simpl.
    destruct (Pos.compare_spec m1 m2) as [Heq|Hlt|Hgt].
    + subst. apply Qle_refl.
    + apply (B2Q_lt_units _ _ _ _ e1); [lia|lia|].
      rewrite Z.sub_diag. simpl. lia.
    + apply (B2Q_le_units _ _ _ _ e1); [lia|lia|].
      rewrite Z.sub_diag. simpl. lia.
  - apply (B2Q_lt_units _ _ _ _ e1); [lia|lia|].
    rewrite Z.sub_diag.
    assert (2 ^ 1 ≤ 2 ^ (e2 - e1)) by (apply Z.pow_le_mono_r; lia).
    change (2 ^ 1) with 2 in *. change (2 ^ 53) with (2 * 2 ^ 52) in *.
    change (2 ^ 0) with 1. nia.
  - apply (B2Q_le_units _ _ _ _ e2); [lia|lia|].
    rewrite Z.sub_diag.
    assert (2 ^ 1 ≤ 2 ^ (e1 - e2)) by (apply Z.pow_le_mono_r; lia).
    change (2 ^ 1) with 2 in *. change (2 ^ 53) with (2 * 2 ^ 52) in *.
    change (2 ^ 0) with 1. nia.
Qed.

(** [int(f)] on a positive number is the floor of its value. *)
Lemma to_int_floor m e :
  ∃ z,
    PyFloat.to_int (S754_finite false m e) = Ok z ∧
    (inject_Z z <= B2Q (S754_finite false m e) < inject_Z z + 1)%Q.
Proof.
  unfold PyFloat.to_int. cbn [cond_Zopp].
  destruct e as [|p|p].
  - exists (Zpos m). split; [done|]. cbn [B2Q cond_Zopp]. simpl (2 ^ 0)%Q.
    split; lra.
  - exists (Zpos m * 2 ^ Zpos p). split; [done|].
    rewrite (B2Q_units m (Zpos p) 0) by lia. rewrite Z.sub_0_r.
    simpl (2 ^ 0)%Q. split; lra.
  - exists (Zpos m / 2 ^ Zpos p). split; [done|].
    set (T := 2 ^ Zpos p). assert (0 < T) as HT by (apply Z.pow_pos_nonneg; lia).
    set (z := Zpos m / T).
    assert (T * z ≤ Zpos m) as H1 by (apply Z.mul_div_le; lia).
    assert (Zpos m < T * Z.succ z) as H2 by (apply Z.mul_succ_div_gt; lia).
    assert (B2Q (S754_finite false m (Zneg p)) * inject_Z T == inject_Z (Zpos m))%Q as HB.
    { cbn [B2Q cond_Zopp]. unfold T. rewrite inject_Z_pow2 by lia.
      rewrite <- Qmult_assoc, <- Qpower_plus by done.
      replace (Zneg p + Zpos p) with 0 by lia. simpl (2 ^ 0)%Q. lra. }
    assert (0 < inject_Z T)%Q as HTq by by rewrite <- (Zlt_Qlt 0).
    split.
    + apply (Qmult_le_cancel (inject_Z T)); [done|].
      rewrite HB, <- inject_Z_mult, <- Zle_Qle. lia.
    + apply (Qmult_lt_cancel (inject_Z T)); [done|].
      rewrite HB. change 1%Q with (inject_Z 1).
      rewrite <- inject_Z_plus, <- inject_Z_mult, <- Zlt_Qlt. lia.
Qed.

End Values.

Section Scaling.

Lemma inject_Z_c52 : (inject_Z (2 ^ 52) == 4503599627370496)%Q.
Proof. reflexivity. Qed.

Lemma inject_Z_c52' : (inject_Z (2 ^ 52 + 1) == 4503599627370497)%Q.
Proof. reflexivity. Qed.

(** The quotient of two positive ints below 2^53, as a value: within a
    factor 1 + 2^-52 of the exact quotient, either way. *)
Lemma int_truediv_value a b :
  0 < a < 2 ^ 53 → 0 < b < 2 ^ 53 →
  ∃ m e,
    PyFloat.int_truediv a b = Ok (S754_finite false m e) ∧
    2 ^ 52 ≤ Zpos m < 2 ^ 53 ∧ -107 ≤ e ≤ 1 ∧
    (4503599627370496 * (B2Q (S754_finite false m e) * inject_Z b)
       <= 4503599627370497 * inject_Z a)%Q ∧
    (4503599627370496 * inject_Z a
       <= 4503599627370497 * (B2Q (S754_finite false m e) * inject_Z b))%Q.
Proof.
  intros Ha Hb.
  destruct (int_truediv_faithful a b Ha Hb)
    as (m & e & s & Hdiv & Hm & Hs & He1 & He2 & HA & HB).
  exists m, e. split; [done|]. split; [done|]. split; [lia|].
  set (V := Zpos m * 2 ^ (e + s)) in *.
  set (P := inject_Z (2 ^ s)).
  assert (0 < P)%Q as HP.
  { unfold P. rewrite <- (Zlt_Qlt 0). apply Z.pow_pos_nonneg; lia. }
  assert (B2Q (S754_finite false m e) * P == inject_Z V)%Q as HV.
  { rewrite (B2Q_units m e (- s)) by lia. unfold P, V.
    replace (e - - s) with (e + s) by lia.
    rewrite (inject_Z_pow2 s) by lia.
    rewrite <- Qmult_assoc, <- Qpower_plus by done.
    replace (- s + s) with 0 by lia. simpl (2 ^ 0)%Q. lra. }
  rewrite Zle_Qle in HA, HB.
  rewrite !inject_Z_mult in HA, HB.
  rewrite inject_Z_c52, inject_Z_c52' in HA, HB. fold P in HA, HB.
  rewrite <- HV in HA, HB.
  set (B := B2Q (S754_finite false m e)) in *.
  split.
  - apply (Qmult_le_cancel P); [done|]. lra.
  - apply (Qmult_le_cancel P); [done|]. lra.
Qed.

Lemma of_int_value W :
  0 < W < 2 ^ 53 →
  ∃ m e,
    PyFloat.of_int W = Ok (S754_finite false m e) ∧
    2 ^ 52 ≤ Zpos m < 2 ^ 53 ∧ -52 ≤ e ≤ 0 ∧
    (B2Q (S754_finite false m e) == inject_Z W)%Q.
Proof.
  intros HW. destruct (of_int_exact W HW) as (m & e & Hof & Hm & He & Hval).
  exists m, e. split; [done|]. split; [done|]. split; [done|].
  cbn [B2Q cond_Zopp]. rewrite Hval, inject_Z_mult, inject_Z_pow2 by lia.
  rewrite <- Qmult_assoc, <- Qpower_plus by done.
  replace (- e + e) with 0 by lia. simpl (2 ^ 0)%Q. lra.
Qed.

Lemma SFmul_value m1 e1 m2 e2 :
  2 ^ 52 ≤ Zpos m1 < 2 ^ 53 → 2 ^ 52 ≤ Zpos m2 < 2 ^ 53 →
  -1126 ≤ e1 + e2 → e1 + e2 < 917 →
  ∃ m e,
    SFmul PyFloat.prec PyFloat.emax (S754_finite false m1 e1) (S754_finite false m2 e2)
      = S754_finite false m e ∧
    (4503599627370496 * B2Q (S754_finite false m e)
       <= 4503599627370497 *
          (B2Q (S754_finite false m1 e1) * B2Q (S754_finite false m2 e2)))%Q ∧
    (4503599627370496 * (B2Q (S754_finite false m1 e1) * B2Q (S754_finite false m2 e2))
       <= 4503599627370497 * B2Q (S754_finite false m e))%Q.
Proof.
  intros Hm1 Hm2 Hlo Hhi.
  destruct (SFmul_faithful m1 e1 m2 e2 Hm1 Hm2 Hlo Hhi)
    as (m & e & Hmul & Hm & He & HA & HB).
  exists m, e. split; [done|].
  set (V := Zpos m * 2 ^ (e - (e1 + e2))) in *.
  assert (B2Q (S754_finite false m e) == inject_Z V * 2 ^ (e1 + e2))%Q as HV
    by by apply B2Q_units.
  assert (B2Q (S754_finite false m1 e1) * B2Q (S754_finite false m2 e2)
          == inject_Z (Zpos m1 * Zpos m2) * 2 ^ (e1 + e2))%Q as HP.
  { cbn [B2Q cond_Zopp]. rewrite inject_Z_mult, Qpower_plus by done. ring. }
  rewrite Zle_Qle in HA, HB. rewrite !inject_Z_mult in HA, HB.
  rewrite inject_Z_c52, inject_Z_c52' in HA, HB.
  rewrite HV, HP. rewrite !inject_Z_mult.
  pose proof (Qpow2_pos (e1 + e2)) as Hpos.
  set (T := (2 ^ (e1 + e2))%Q) in *.
  assert ((4503599627370496 * inject_Z V) * T
          <= (4503599627370497 * (inject_Z (Zpos m1) * inject_Z (Zpos m2))) * T)%Q as HA'
    by (apply Qmult_le_r; done).
  assert ((4503599627370496 * (inject_Z (Zpos m1) * inject_Z (Zpos m2))) * T
          <= (4503599627370497 * inject_Z V) * T)%Q as HB'
    by (apply Qmult_le_r; done).
  split; lra.
Qed.

(** One scaled dimension: [int(X * r)] for a positive int [X] and a normal
    positive ratio [r]. *)
Lemma scaled_dimension X m e :
  0 < X < 2 ^ 53 → 2 ^ 52 ≤ Zpos m < 2 ^ 53 → -107 ≤ e ≤ 1 →
  ∃ z,
    (let? f := PyFloat.int_mul X (S754_finite false m e) in PyFloat.to_int f) = Ok z ∧
    0 ≤ z ∧
    (4503599627370496 * inject_Z z
       <= 4503599627370497 * (inject_Z X * B2Q (S754_finite false m e)))%Q ∧
    (4503599627370496 * (inject_Z X * B2Q (S754_finite false m e))
       < 4503599627370497 * (inject_Z z + 1))%Q.
Proof.
  intros HX Hm He.
  destruct (of_int_value X HX) as (mc & ec & Hof & Hmc & Hec & Hval).
  destruct (SFmul_value mc ec m e Hmc Hm) as (mp & ep & Hmul & HA & HB); [lia|lia|].
  destruct (to_int_floor mp ep) as (z & Hto & Hz1 & Hz2).
  exists z. unfold PyFloat.int_mul. rewrite Hof. cbn [pyres_bind]. rewrite Hmul.
  split; [done|].
  pose proof (B2Q_pos mp ep) as Hpos.
  rewrite Hval in HA, HB.
  split; [|split; lra].
  assert (inject_Z 0 < inject_Z (z + 1))%Q as Hz.
  { rewrite inject_Z_plus. change (inject_Z 0) with 0%Q. change (inject_Z 1) with 1%Q. lra. }
  rewrite <- Zlt_Qlt in Hz. lia.
Qed.

(** The scaled size and the ratio it was computed with: the ratio is
    within a factor 1 + 2^-52 of both quotients from below, reaches one of
    them, and each scaled dimension is the floor of the dimension times the
    ratio, up to the same factor. *)
Lemma scaled_size_ratio (W H Tw Th : Z) :
  0 < W < 2 ^ 53 → 0 < H < 2 ^ 53 → 0 < Tw < 2 ^ 53 → 0 < Th < 2 ^ 53 →
  ∃ w h (r : Q),
    calculate_scaled_size (W, H) (Tw, Th) = Ok (w, h) ∧
    0 ≤ w ∧ 0 ≤ h ∧
    (4503599627370496 * (inject_Z W * r) <= 4503599627370497 * inject_Z Tw)%Q ∧
    (4503599627370496 * (inject_Z H * r) <= 4503599627370497 * inject_Z Th)%Q ∧
    ((4503599627370496 * inject_Z Tw <= 4503599627370497 * (inject_Z W * r))%Q ∨
     (4503599627370496 * inject_Z Th <= 4503599627370497 * (inject_Z H * r))%Q) ∧
    (4503599627370496 * inject_Z w <= 4503599627370497 * (inject_Z W * r))%Q ∧
    (4503599627370496 * (inject_Z W * r) < 4503599627370497 * (inject_Z w + 1))%Q ∧
    (4503599627370496 * inject_Z h <= 4503599627370497 * (inject_Z H * r))%Q ∧
    (4503599627370496 * (inject_Z H * r) < 4503599627370497 * (inject_Z h + 1))%Q.
Proof.
  intros HW HH HTw HTh.
  destruct (int_truediv_value Tw W) as (mw & ew & Hdw & Hmw & Hew & HwA & HwB); [lia|lia|].
  destruct (int_truediv_value Th H) as (mh & eh & Hdh & Hmh & Heh & HhA & HhB); [lia|lia|].
  unfold calculate_scaled_size. rewrite Hdw, Hdh. cbn [pyres_bind].
  set (rw := S754_finite false mw ew) in *. set (rh := S754_finite false mh eh) in *.
  pose proof (SFltb_spec mh eh mw ew Hmh Hmw) as Hcmp. fold rw rh in Hcmp.
  unfold PyFloat.min.
  assert (inject_Z 0 < inject_Z W)%Q as HWq by (rewrite <- Zlt_Qlt; lia).
  assert (inject_Z 0 < inject_Z H)%Q as HHq by (rewrite <- Zlt_Qlt; lia).
  change (inject_Z 0) with 0%Q in *.
  destruct (SFltb rh rw).
  - destruct (scaled_dimension W mh eh) as (w & Hw & Hw0 & HwU & HwL); [lia|done|done|].
    destruct (scaled_dimension H mh eh) as (h & Hh & Hh0 & HhU & HhL); [lia|done|done|].
    fold rh in Hw, Hh, HwU, HwL, HhU, HhL.
    destruct (PyFloat.int_mul W rh) as [fw|] eqn:Hfw; [|done]. cbn [pyres_bind] in Hw |- *.
    rewrite Hw. cbn [pyres_bind].
    destruct (PyFloat.int_mul H rh) as [fh|] eqn:Hfh; [|done]. cbn [pyres_bind] in Hh |- *.
    rewrite Hh. cbn [pyres_bind].
    exists w, h, (B2Q rh). split; [done|]. split; [done|]. split; [done|].
    assert (inject_Z W * B2Q rh <= inject_Z W * B2Q rw)%Q as Hmono.
    { apply Qmult_le_l; [done|]. lra. }
    split; [lra|]. split; [lra|]. split; [right; lra|].
    split; [done|]. split; [done|]. split; done.
  - destruct (scaled_dimension W mw ew) as (w & Hw & Hw0 & HwU & HwL); [lia|done|done|].
    destruct (scaled_dimension H mw ew) as (h & Hh & Hh0 & HhU & HhL); [lia|done|done|].
    fold rw in Hw, Hh, HwU, HwL, HhU, HhL.
    destruct (PyFloat.int_mul W rw) as [fw|] eqn:Hfw; [|done]. cbn [pyres_bind] in Hw |- *.
    rewrite Hw. cbn [pyres_bind].
    destruct (PyFloat.int_mul H rw) as [fh|] eqn:Hfh; [|done]. cbn [pyres_bind] in Hh |- *.
    rewrite Hh. cbn [pyres_bind].
    exists w, h, (B2Q rw). split; [done|]. split; [done|]. split; [done|].
    assert (inject_Z H * B2Q rw <= inject_Z H * B2Q rh)%Q as Hmono.
    { apply Qmult_le_l; [done|]. lra. }
    split; [lra|]. split; [lra|]. split; [left; lra|].
    split; [done|]. split; [done|]. split; done.
Qed.

End Scaling.

(** X8: for image and box dimensions that are positive C ints (below
    2^31) [calculate_scaled_size] raises nothing, and the scaled image
    fits the box: neither dimension is negative or exceeds its bound, and
    the dimension that limits the scale misses its bound by one pixel at
    most. *)
Theorem scaled_size_fits (W H Tw Th : Z) :
  0 < W < 2 ^ 31 → 0 < H < 2 ^ 31 → 0 < Tw < 2 ^ 31 → 0 < Th < 2 ^ 31 →
  ∃ w h,
    calculate_scaled_size (W, H) (Tw, Th) = Ok (w, h) ∧
    0 ≤ w ≤ Tw ∧ 0 ≤ h ≤ Th ∧
    (Tw - 1 ≤ w ∨ Th - 1 ≤ h).
Proof.
  intros HW HH HTw HTh.
  assert (2 ^ 31 < 2 ^ 53) as Hlt by done.
  destruct (scaled_size_ratio W H Tw Th)
    as (w & h & r & Hcalc & Hw0 & Hh0 & HrW & HrH & Hreach & HwU & HwL & HhU & HhL);
    [lia|lia|lia|lia|].
  exists w, h. split; [done|].
  assert (inject_Z Tw < inject_Z (2 ^ 31))%Q as HTwq by (rewrite <- Zlt_Qlt; lia).
  assert (inject_Z Th < inject_Z (2 ^ 31))%Q as HThq by (rewrite <- Zlt_Qlt; lia).
  assert (inject_Z 0 < inject_Z Tw)%Q as HTwq0 by (rewrite <- Zlt_Qlt; lia).
  assert (inject_Z 0 < inject_Z Th)%Q as HThq0 by (rewrite <- Zlt_Qlt; lia).
  change (inject_Z (2 ^ 31)) with 2147483648%Q in *.
  change (inject_Z 0) with 0%Q in *.
  assert (inject_Z w < inject_Z (Tw + 1))%Q as H1.
  { rewrite inject_Z_plus. change (inject_Z 1) with 1%Q. lra. }
  assert (inject_Z h < inject_Z (Th + 1))%Q as H2.
  { rewrite inject_Z_plus. change (inject_Z 1) with 1%Q. lra. }
  rewrite <- Zlt_Qlt in H1, H2.
  split; [lia|]. split; [lia|].
  destruct Hreach as [Hreach|Hreach]; [left|right].
  - assert (inject_Z Tw < inject_Z (w + 2))%Q as H3.
    { rewrite inject_Z_plus. change (inject_Z 2) with 2%Q. lra. }
    rewrite <- Zlt_Qlt in H3. lia.
  - assert (inject_Z Th < inject_Z (h + 2))%Q as H3.
    { rewrite inject_Z_plus. change (inject_Z 2) with 2%Q. lra. }
    rewrite <- Zlt_Qlt in H3. lia.
Qed.

(** X10: scaling keeps the aspect ratio to within one pixel: for
    dimensions that are positive and below 2^24, the scaled size (w, h) of
    a W x H image satisfies -H <= w * H - h * W <= W, that is, w / W and
    h / H differ by less than one pixel of the other dimension. *)
Theorem scaled_size_keeps_aspect (W H Tw Th : Z) :
  0 < W < 2 ^ 24 → 0 < H < 2 ^ 24 → 0 < Tw < 2 ^ 24 → 0 < Th < 2 ^ 24 →
  ∃ w h,
    calculate_scaled_size (W, H) (Tw, Th) = Ok (w, h) ∧
    - H ≤ w * H - h * W ≤ W.
Proof.
  intros HW HH HTw HTh.
  assert (2 ^ 24 < 2 ^ 53) as Hlt by done.
  destruct (scaled_size_ratio W H Tw Th)
    as (w & h & r & Hcalc & Hw0 & Hh0 & HrW & HrH & _ & HwU & HwL & HhU & HhL);
    [lia|lia|lia|lia|].
  exists w, h. split; [done|].
  assert (0 < inject_Z W)%Q as HWq by (rewrite <- (Zlt_Qlt 0); lia).
  assert (0 < inject_Z H)%Q as HHq by (rewrite <- (Zlt_Qlt 0); lia).
  assert (inject_Z (Tw * H) <= 281474976710656)%Q as HTwH.
  { change 281474976710656%Q with (inject_Z (2 ^ 48)). rewrite <- Zle_Qle.
    change (2 ^ 48) with (2 ^ 24 * 2 ^ 24). nia. }
  assert (inject_Z (Th * W) <= 281474976710656)%Q as HThW.
  { change 281474976710656%Q with (inject_Z (2 ^ 48)). rewrite <- Zle_Qle.
    change (2 ^ 48) with (2 ^ 24 * 2 ^ 24). nia. }
  rewrite inject_Z_mult in HTwH, HThW.
  set (iW := inject_Z W) in *. set (iH := inject_Z H) in *.
  set (iw := inject_Z w) in *. set (ih := inject_Z h) in *.
  (* everything times the other dimension *)
  assert (4503599627370496 * (iW * r) * iH <= 4503599627370497 * inject_Z Tw * iH)%Q as M1
    by (apply Qmult_le_r; done).
  assert (4503599627370496 * (iH * r) * iW <= 4503599627370497 * inject_Z Th * iW)%Q as M2
    by (apply Qmult_le_r; done).
  assert (4503599627370496 * iw * iH <= 4503599627370497 * (iW * r) * iH)%Q as M3
    by (apply Qmult_le_r; done).
  assert (4503599627370496 * (iW * r) * iH < 4503599627370497 * (iw + 1) * iH)%Q as M4
    by (apply Qmult_lt_r; done).
  assert (4503599627370496 * ih * iW <= 4503599627370497 * (iH * r) * iW)%Q as M5
    by (apply Qmult_le_r; done).
  assert (4503599627370496 * (iH * r) * iW < 4503599627370497 * (ih + 1) * iW)%Q as M6
    by (apply Qmult_lt_r; done).
  assert (inject_Z (w * H - h * W) < inject_Z (W + 1))%Q as H1.
  { unfold Z.sub. rewrite !inject_Z_plus, inject_Z_opp, !inject_Z_mult.
    change (inject_Z 1) with 1%Q. fold iW iH iw ih. lra. }
  assert (inject_Z (h * W - w * H) < inject_Z (H + 1))%Q as H2.
  { unfold Z.sub. rewrite !inject_Z_plus, inject_Z_opp, !inject_Z_mult.
    change (inject_Z 1) with 1%Q. fold iW iH iw ih. lra. }
  rewrite <- Zlt_Qlt in H1, H2. lia.
Qed.

Lemma scaled_size_keeps_aspect_witness :
  ∃ w h,
    calculate_scaled_size (1920, 1080) (500, 500) = Ok (w, h) ∧
    - 1080 ≤ w * 1080 - h * 1920 ≤ 1920.
Proof.
  apply (scaled_size_keeps_aspect 1920 1080 500 500); simpl; lia.
Defined.

Lemma scaled_size_fits_witness :
  ∃ w h,
    calculate_scaled_size (640, 480) (500, 500) = Ok (w, h) ∧
    0 ≤ w ≤ 500 ∧ 0 ≤ h ≤ 500 ∧ (500 - 1 ≤ w ∨ 500 - 1 ≤ h).
Proof.
  apply (scaled_size_fits 640 480 500 500); simpl; lia.
Defined.

Lemma zero_size_raises (W H Tw Th : Z) :
  W = 0 ∨ (H = 0 ∧ 0 < W < 2 ^ 53 ∧ 0 < Tw < 2 ^ 53) →
  calculate_scaled_size (W, H) (Tw, Th) = Exc (Exn ZeroDivisionError "division by zero").
Proof.
  intros [->|(-> & HW & HTw)]; unfold calculate_scaled_size.
  - done.
  - destruct (int_truediv_value Tw W HTw HW) as (m & e & -> & _). done.
Qed.

(** X9: an image that decodes with a zero dimension (width 0, or height 0
    with a width below 2^31) ends the session: scaling divides by zero, the
    exception is caught by [show_next_image], which prints the error and
    the file name and leaves the process with status 0 without touching the
    canvas or arming a timer. *)
Theorem zero_size_image_exits {G : Type} {RS : RandomSource G} {IM : Imaging}
    (w w1 : world G) (name : string) (img : image) :
  get_next_image w = Ret name w1 →
  Image_open (path_join (folder (self w1)) name) = Ok img →
  (img_size img).1 = 0 ∨ ((img_size img).2 = 0 ∧ 0 < (img_size img).1 < 2 ^ 31) →
  show_next_image w =
    SysExit 0 (World (with_current_image None (self w1)) (gen w1)
                 (log w ++ [Print "Error loading image: division by zero";
                            Print ("name = " +:+ name)])).
Proof.
  intros Hget Hopen Hzero.
  assert (load_image (path_join (folder (self w1)) name) (width, height)
          = Exc (Exn ZeroDivisionError "division by zero")) as Hload.
  { unfold load_image. rewrite Hopen. cbn [pyres_bind].
    destruct (img_size img) as [W H]. simpl in Hzero.
    rewrite zero_size_raises; [done|].
    destruct Hzero as [->|(-> & HW)]; [by left|right].
    split; [done|]. split; [|done].
    assert (2 ^ 31 < 2 ^ 53) by done. lia. }
  rewrite (show_next_image_failed w name w1 _ Hget Hload).
  by rewrite (get_next_image_log w w1 name Hget).
Qed.


Lemma zero_size_image_exits_witness :
  show_next_image (IM := sample_flat_imaging)
    (World (initial_self false "pics" sample_images) ([5; 1; 0] : list Z) []) =
  SysExit 0
    (World (with_current_image None (record_shown 2 (initial_self false "pics" sample_images)))
       [1; 0]
       [Print "Error loading image: division by zero"; Print "name = c.png"]).
Proof.
  apply (zero_size_image_exits (IM := sample_flat_imaging)
           (World (initial_self false "pics" sample_images) ([5; 1; 0] : list Z) [])
           (World (record_shown 2 (initial_self false "pics" sample_images)) [1; 0] [])
           "c.png" (Image (640, 0))).
  - vm_compute. reflexivity.
  - reflexivity.
  - right. simpl. lia.
Defined.
